(** * Request-scoped credentials and the load test

    Part one is a shallow embedding of
    cuga/backend/llm/credential_context.py and the proofs of its
    behaviour inside one logical flow.  Which context is current, and how
    contexts are handed to threads and tasks, is decided by the Python
    runtime and is not part of the module; the state below is the one the
    calling flow sees.

    The module keeps one [ContextVar] named ["request_credentials"] whose
    default is [None].  Its four functions read and write that variable in
    the context of the caller.  The embedding below models

    - Python values that the variable can hold: [None] or a reference to a
      [RequestCredentials] instance;
    - the object heap, because [RequestCredentials] is an ordinary (not
      frozen) dataclass: instances have identity and could be assigned to;
    - a [contextvars.Context] as a finite map from variables to values;
    - exceptions, so that "never raises" is a statement and not a
      convention.

    Part two embeds the event-stream parser and the counting of
    system_tests/e2e/load_test.py. *)

From Stdlib Require Import Ascii ZArith.
From stdpp Require Import base option gmap strings list fin_maps.

Open Scope string_scope.

(** ** Python-level data *)

(** [Optional[str]]: [None] or a string; the empty string is a string. *)
Abbreviation opt_str := (option string).

(** Object identities. *)
Abbreviation loc := positive.

(** The dataclass [RequestCredentials]; every field is [Optional[str]]
    with default [None]. *)
Record RequestCredentials := mkRequestCredentials {
  api_key : opt_str;
  provider : opt_str;
  model : opt_str;
  base_url : opt_str;
  user_id : opt_str;
  organization_id : opt_str
}.

#[global] Instance RequestCredentials_eq_dec : EqDecision RequestCredentials.
Proof. solve_decision. Defined.

(** [Optional[RequestCredentials]] as the interpreter sees it: the
    singleton [None] or a reference to an instance on the heap. *)
Inductive value :=
  | PyNone
  | PyRef (l : loc).

#[global] Instance value_eq_dec : EqDecision value.
Proof. solve_decision. Defined.

(** Exceptions the primitives used by the module can raise. *)
Inductive exn :=
  | LookupError      (* ContextVar.get on an unbound variable without default *)
  | AttributeError.  (* attribute read through a reference to no object *)

Inductive result (A : Type) :=
  | Ok (a : A)
  | Raise (e : exn).
Arguments Ok {A} a.
Arguments Raise {A} e.

(** ** Interpreter state seen by one flow *)

(** A context variable: its name and its optional default. *)
Record ContextVar := mkContextVar {
  var_name : string;
  var_default : option value
}.

(** The state a flow runs in: the object heap and the flow's current
    [contextvars.Context], a finite map from variables (identified by
    their names) to the values bound to them. *)
Record World := mkWorld {
  heap : gmap loc RequestCredentials;
  context : gmap string value
}.

(** ** The state-and-exception monad of a flow *)

Definition M (A : Type) : Type := World → result (A * World).

#[global] Instance M_ret : MRet M := λ A a w, Ok (a, w).

#[global] Instance M_bind : MBind M := λ A B k m w,
  match m w with
  | Ok (a, w') => k a w'
  | Raise e => Raise e
  end.

(** ** Primitives of the runtime *)

(** [RequestCredentials(...)]: allocate a new instance at an identity no
    live object has and return the reference. *)
Definition new_RequestCredentials (b : RequestCredentials) : M loc :=
  λ w, let l := fresh (dom (heap w)) in
       Ok (l, mkWorld (<[l := b]> (heap w)) (context w)).

(** Load the instance behind a reference; every attribute read goes
    through it. *)
Definition deref (l : loc) : M RequestCredentials :=
  λ w, match heap w !! l with
       | Some b => Ok (b, w)
       | None => Raise AttributeError
       end.

(** [obj.api_key]: read the attribute of the instance behind [l]. *)
Definition getattr_api_key (l : loc) : M opt_str :=
  b ← deref l; mret (api_key b).

(** Overwrite the instance behind a reference. *)
Definition store (l : loc) (b : RequestCredentials) : M unit :=
  λ w, Ok (tt, mkWorld (<[l := b]> (heap w)) (context w)).

(** [obj.api_key = v]: the dataclass is not frozen, so the runtime allows
    the assignment.  The module itself never performs one. *)
Definition setattr_api_key (l : loc) (v : opt_str) : M unit :=
  b ← deref l;
  store l (mkRequestCredentials v (provider b) (model b)
                                (base_url b) (user_id b) (organization_id b)).

(** [var.get()]: the value bound in the current context, else the
    variable's default, else [LookupError]. *)
Definition ContextVar_get (x : ContextVar) : M value :=
  λ w, match context w !! var_name x with
       | Some v => Ok (v, w)
       | None =>
           match var_default x with
           | Some d => Ok (d, w)
           | None => Raise LookupError
           end
       end.

(** [var.set(v)]: bind [v] in the current context (the returned token is
    dropped by every caller in the module). *)
Definition ContextVar_set (x : ContextVar) (v : value) : M unit :=
  λ w, Ok (tt, mkWorld (heap w) (<[var_name x := v]> (context w))).

(** ** The module *)

(** [_request_credentials = ContextVar("request_credentials", default=None)] *)
Definition _request_credentials : ContextVar :=
  mkContextVar "request_credentials" (Some PyNone).

Definition set_request_credentials
    (api_key provider model base_url user_id organization_id : opt_str)
    : M unit :=
  creds ← new_RequestCredentials
            (mkRequestCredentials api_key provider model base_url
                                  user_id organization_id);
  ContextVar_set _request_credentials (PyRef creds).

Definition get_request_credentials : M value :=
  ContextVar_get _request_credentials.

Definition clear_request_credentials : M unit :=
  ContextVar_set _request_credentials PyNone.

(** [creds is not None and creds.api_key is not None]; the attribute is
    read only when the left operand is true. *)
Definition has_request_credentials : M bool :=
  creds ← ContextVar_get _request_credentials;
  match creds with
  | PyNone => mret false
  | PyRef l => k ← getattr_api_key l; mret (bool_decide (k ≠ None))
  end.

(** ** Callers

    A caller inside a flow invokes the four functions in some order.  A
    call and what it hands back: *)
Inductive op :=
  | CallSet (api_key provider model base_url user_id organization_id : opt_str)
  | CallGet
  | CallClear
  | CallHas.

Inductive out :=
  | OutNone                (* set and clear return None *)
  | OutValue (v : value)   (* get returns None or a reference *)
  | OutBool (b : bool).    (* has returns a bool *)

Definition run_op (o : op) : M out :=
  match o with
  | CallSet a p m b u g =>
      set_request_credentials a p m b u g;; mret OutNone
  | CallGet => v ← get_request_credentials; mret (OutValue v)
  | CallClear => clear_request_credentials;; mret OutNone
  | CallHas => b ← has_request_credentials; mret (OutBool b)
  end.

Fixpoint run_ops (os : list op) : M (list out) :=
  match os with
  | [] => mret []
  | o :: os' => x ← run_op o; xs ← run_ops os'; mret (x :: xs)
  end.

(** What a caller learns from a value handed back by [get]: nothing behind
    [None], the six fields behind a reference. *)
Definition fields_of (v : value) : M (option RequestCredentials) :=
  match v with
  | PyNone => mret None
  | PyRef l => b ← deref l; mret (Some b)
  end.

(** [get_request_credentials()] followed by reading the fields of the
    result. *)
Definition get_fields : M (option RequestCredentials) :=
  v ← get_request_credentials; fields_of v.

(** Observations by content: as [out], with the fields read in place of
    the reference. *)
Inductive obs :=
  | ObsNone
  | ObsBundle (b : option RequestCredentials)
  | ObsBool (b : bool).

Definition observe_op (o : op) : M obs :=
  x ← run_op o;
  match x with
  | OutNone => mret ObsNone
  | OutValue v => b ← fields_of v; mret (ObsBundle b)
  | OutBool b => mret (ObsBool b)
  end.

Fixpoint observe_ops (os : list op) : M (list obs) :=
  match os with
  | [] => mret []
  | o :: os' => x ← observe_op o; xs ← observe_ops os'; mret (x :: xs)
  end.

(** The answer of a computation, without the final state. *)
Definition answer {A} (r : result (A * World)) : result A :=
  match r with
  | Ok (a, _) => Ok a
  | Raise e => Raise e
  end.

Definition is_set (o : op) : bool :=
  match o with
  | CallSet _ _ _ _ _ _ => true
  | _ => false
  end.

(** ** States a flow can be in *)

(** A world with nothing allocated and nothing bound: a flow that starts
    from an empty context. *)
Definition empty_world : World := mkWorld ∅ ∅.

(** References do not dangle: when the variable is bound to a reference,
    an instance lives behind it.  The Python runtime guarantees this of
    every state; here it is an invariant of the four functions. *)
Definition live (w : World) : Prop :=
  match context w !! var_name _request_credentials with
  | Some (PyRef l) => is_Some (heap w !! l)
  | _ => True
  end.

(** The variable has no binding in the flow's context: [set] (and
    [clear]) were never called in it. *)
Definition never_set (w : World) : Prop :=
  context w !! var_name _request_credentials = None.

(** The presence test in the words of the specification: a bundle is in
    scope and its [api_key] is neither absent nor the empty string. *)
Definition spec_has_credentials (w : World) : Prop :=
  ∃ l b k, get_request_credentials w = Ok (PyRef l, w)
           ∧ heap w !! l = Some b
           ∧ api_key b = Some k ∧ k ≠ "".

(** The world [set_request_credentials] leaves behind. *)
Definition world_after_set (c : RequestCredentials) (w : World) : World :=
  mkWorld (<[fresh (dom (heap w)) := c]> (heap w))
          (<[var_name _request_credentials := PyRef (fresh (dom (heap w)))]>
             (context w)).

(** The world [clear_request_credentials] leaves behind. *)
Definition world_after_clear (w : World) : World :=
  mkWorld (heap w) (<[var_name _request_credentials := PyNone]> (context w)).

(** The bundle [set_request_credentials()] builds when no argument is
    supplied: every parameter takes its default [None]. *)
Definition no_fields : RequestCredentials :=
  mkRequestCredentials None None None None None None.

(** The state of a flow that starts from an empty context and calls
    [set_request_credentials(api_key="")]. *)
Definition empty_key_world : World :=
  mkWorld {[ 1%positive := mkRequestCredentials (Some "") None None None None None ]}
          {[ "request_credentials" := PyRef 1 ]}.

(** The calls of [os] made before a new [set] occurs. *)
Fixpoint before_set (os : list op) : list op :=
  match os with
  | [] => []
  | o :: os' => if is_set o then [] else o :: before_set os'
  end.

(** What a call other than [set] hands back in a flow without
    credentials. *)
Definition unbound_out (o : op) : out :=
  match o with
  | CallGet => OutValue PyNone
  | CallHas => OutBool false
  | _ => OutNone
  end.

(** What the flow can read of its credentials: the fields behind the
    value [get] returns, without the final state. *)
Definition view (w : World) : result (option RequestCredentials) :=
  answer (get_fields w).

(** The three shapes of a state, with what the flow can read in each. *)
Inductive view_spec (w : World) : result (option RequestCredentials) → Prop :=
  | view_unbound :
      get_request_credentials w = Ok (PyNone, w) →
      view_spec w (Ok None)
  | view_bound l c :
      get_request_credentials w = Ok (PyRef l, w) →
      heap w !! l = Some c →
      view_spec w (Ok (Some c))
  | view_dangling l :
      get_request_credentials w = Ok (PyRef l, w) →
      heap w !! l = None →
      view_spec w (Raise AttributeError).

(** ** Further notions used to describe sequences of calls *)

(** What a call writes to the flow's binding: a [set] writes the bundle
    built from its arguments, a [clear] writes [None], the two readers
    write nothing. *)
Definition write_of (o : op) : option (option RequestCredentials) :=
  match o with
  | CallSet a p m b u g => Some (Some (mkRequestCredentials a p m b u g))
  | CallClear => Some None
  | CallGet | CallHas => None
  end.

(** The last write of a sequence of calls, if it has one. *)
Fixpoint last_write (os : list op) : option (option RequestCredentials) :=
  match os with
  | [] => None
  | o :: os' =>
      match last_write os' with
      | Some c => Some c
      | None => write_of o
      end
  end.

(** What [has_request_credentials] answers when the flow reads [c]. *)
Definition has_of (c : option RequestCredentials) : bool :=
  match c with
  | None => false
  | Some b => bool_decide (api_key b ≠ None)
  end.

(** Truth value of an [Optional[str]] in a condition: [None] and the
    empty string are false. *)
Definition truthy (k : opt_str) : bool :=
  match k with
  | None => false
  | Some s => bool_decide (s ≠ "")
  end.

(** The caller's gate shown in the module docstring:

      creds = get_request_credentials()
      if creds and creds.api_key:   # use the request's credentials
      else:                         # fall back to the environment

    An instance of the dataclass is always true in a condition (it
    defines neither [__bool__] nor [__len__]); the attribute is read only
    when [creds] is not [None]. *)
Definition caller_gate : M bool :=
  creds ← get_request_credentials;
  match creds with
  | PyNone => mret false
  | PyRef l => k ← getattr_api_key l; mret (truthy k)
  end.

(** ** Several flows

    The interpreter keeps one object heap for the process and one
    [contextvars.Context] per flow; a call made in a flow runs in that
    flow's context.  Contexts belong to flows, not to threads, so the
    thread a flow runs on does not occur.  None of the four functions
    suspends: a call is one step, and flows that run interleaved or in
    parallel make their calls in some order, a schedule. *)

Abbreviation flow := nat.

Record Runtime := mkRuntime {
  rt_heap : gmap loc RequestCredentials;
  rt_contexts : gmap flow (gmap string value)
}.

(** The state flow [f] sees: the shared heap and its own context (empty
    if it has not been given one). *)
Definition world_of (rt : Runtime) (f : flow) : World :=
  mkWorld (rt_heap rt) (rt_contexts rt !!! f).

(** Run a computation in flow [f]: on the shared heap and in the context
    of [f]; the heap and that context are updated. *)
Definition in_flow {A} (f : flow) (m : M A) (rt : Runtime)
    : result (A * Runtime) :=
  match m (world_of rt f) with
  | Ok (a, w') =>
      Ok (a, mkRuntime (heap w') (<[f := context w']> (rt_contexts rt)))
  | Raise e => Raise e
  end.




(** Two flows whose contexts are bound to one and the same instance, as
    after a context was copied for a new task. *)
Definition shared_runtime : Runtime :=
  mkRuntime
    {[ 1%positive := mkRequestCredentials (Some "k") None None None None None ]}
    {[ 0 := {[ "request_credentials" := PyRef 1 ]};
       1 := {[ "request_credentials" := PyRef 1 ]} ]}.

(** * The load test (system_tests/e2e/load_test.py)

    [LoadTest.run_single_user_task] posts a query, reads the reply as a
    stream of server-sent events and checks the answer;
    [LoadTest.test_concurrent_users] runs twenty of them and counts.
    The network is outside the model: a reply is the status code and the
    list of chunks [response.aiter_bytes()] yields.  [print] is left
    out. *)

(** ** Byte strings *)

Open Scope list_scope.

(** [bytes]: a sequence of 8-bit characters. *)
Abbreviation bytes := (list ascii).

(** [str]: a sequence of Unicode code points. *)
Abbreviation str := (list N).

Definition LF : ascii := "010"%char.

(** [b"\n\n"], [b"event: "], [b"data: "] *)
Definition block_sep : bytes := [LF; LF].
Definition event_prefix : bytes := String.list_ascii_of_string "event: ".
Definition data_prefix : bytes := String.list_ascii_of_string "data: ".

(** ["Answer"] and the test's [expected_keywords = ["50"]] *)
Definition Answer : str := [65; 110; 115; 119; 101; 114]%N.
Definition expected_keywords : list str := [[53; 48]%N].

(** [b.startswith(p)] *)
Fixpoint startswith {A} `{EqDecision A} (b p : list A) {struct p} : bool :=
  match p, b with
  | [], _ => true
  | _ :: _, [] => false
  | x :: p', y :: b' => bool_decide (x = y) && startswith b' p'
  end.

(** [sep in b] for a non-empty [sep]: [sep] occurs as a substring. *)
Fixpoint contains {A} `{EqDecision A} (sep b : list A) : bool :=
  startswith b sep
  || match b with
     | [] => false
     | _ :: b' => contains sep b'
     end.

(** [b.split(sep, 1)] when [sep] occurs in [b]: the bytes before its
    first occurrence and the bytes after it; [None] when it does not
    occur (Python then returns the one-element list [[b]]). *)
Fixpoint split_once (sep b : bytes) : option (bytes * bytes) :=
  if startswith b sep then Some ([], drop (length sep) b)
  else match b with
       | [] => None
       | c :: b' =>
           match split_once sep b' with
           | Some (before, after) => Some (c :: before, after)
           | None => None
           end
       end.

(** [b.split(b"\n")] for a one-byte separator: the segments between the
    separators, empty ones included; [b"".split(b"\n") = [b""]]. *)
Fixpoint split_byte (c : ascii) (b : bytes) : list bytes :=
  match b with
  | [] => [[]]
  | x :: b' =>
      if decide (x = c) then [] :: split_byte c b'
      else match split_byte c b' with
           | seg :: segs => (x :: seg) :: segs
           | [] => [[x]]
           end
  end.

(** The bytes [bytes.strip()] removes: space, tab, line feed, vertical
    tab, form feed, carriage return. *)
Definition is_space (c : ascii) : bool :=
  bool_decide (c ∈ [" "; "009"; "010"; "011"; "012"; "013"]%char).

Fixpoint lstrip (b : bytes) : bytes :=
  match b with
  | [] => []
  | c :: b' => if is_space c then lstrip b' else b
  end.

Definition rstrip (b : bytes) : bytes := reverse (lstrip (reverse b)).

(** [b.strip()] *)
Definition strip (b : bytes) : bytes := rstrip (lstrip b).

(** ** Parsing the event stream *)

Section EventStream.

(** The payload type [self._parse_event_data] returns.  The method
    belongs to [BaseTestServerStream], which is not in this
    repository's excerpt; it is taken as a function of its argument
    that returns a payload or raises ([None]). *)
Context {data : Type}.
Variable _parse_event_data : str → option data.

(** [bytes.decode("utf-8")]: the code points, or [None] for
    [UnicodeDecodeError].  [str.strip()], [str.lower()] and [str(x)] of
    a payload.  The proofs hold for every choice of the four. *)
Variable decode : bytes → option str.
Variable str_strip : str → str.
Variable str_lower : str → str.
Variable str_of_data : data → str.
(** [str(b)] of a [bytes] object (its [repr]). *)
Variable str_of_bytes : bytes → str.

(** The value under ["data"]: the parsed payload, or the raw bytes when
    decoding or parsing raised. *)
Inductive data_value :=
  | Parsed (d : data)
  | RawBytes (b : bytes).

(** The dict [event_data]: it only ever holds the keys ["event"] and
    ["data"]. *)
Record event_data := mk_event_data {
  ev_event : option str;
  ev_data : option data_value
}.

(** [{}] *)
Definition no_event : event_data := mk_event_data None None.

(** [if event_data:] a dict is true when it has a key. *)
Definition nonempty (e : event_data) : bool :=
  bool_decide (is_Some (ev_event e)) || bool_decide (is_Some (ev_data e)).

(** [event_data.get("event") == "Answer"] *)
Definition is_Answer (e : event_data) : bool :=
  match ev_event e with
  | Some s => bool_decide (s = Answer)
  | None => false
  end.

(** The body of [for line in event_lines].  [None]: the
    [UnicodeDecodeError] of an [event:] line leaves the loop; inside
    the [try] of a [data:] line every exception is caught. *)
Definition handle_line (e : event_data) (line : bytes) : option event_data :=
  let line := strip line in
  if bool_decide (line = []) then Some e
  else if startswith line event_prefix then
    s ← decode (drop (length event_prefix) line);
    Some (mk_event_data (Some (str_strip s)) (ev_data e))
  else if startswith line data_prefix then
    let raw := drop (length data_prefix) line in
    let v := match decode raw ≫= (λ s, _parse_event_data (str_strip s)) with
             | Some d => Parsed d
             | None => RawBytes (strip raw)
             end in
    Some (mk_event_data (ev_event e) (Some v))
  else Some e.

Fixpoint for_lines (lines : list bytes) (e : event_data) : option event_data :=
  match lines with
  | [] => Some e
  | line :: lines' => e' ← handle_line e line; for_lines lines' e'
  end.

(** One event block: split into lines, start from [{}], run the loop. *)
Definition parse_block (event_block : bytes) : option event_data :=
  for_lines (split_byte LF event_block) no_event.

(** [while b"\n\n" in buffer: ...], with the number of iterations
    bounded by [fuel]; [None] when an exception leaves the loop.  The
    [break] after an ["Answer"] event ends this loop only. *)
Fixpoint while_loop (fuel : nat) (buffer : bytes) (all_events : list event_data)
    : option (bytes * list event_data) :=
  match fuel with
  | O => Some (buffer, all_events)
  | S fuel' =>
      if contains block_sep buffer then
        '(event_block, buffer') ← split_once block_sep buffer;
        e ← parse_block event_block;
        if nonempty e then
          if is_Answer e then Some (buffer', all_events ++ [e])
          else while_loop fuel' buffer' (all_events ++ [e])
        else while_loop fuel' buffer' all_events
      else Some (buffer, all_events)
  end.

(** One round of [async for chunk in response.aiter_bytes()]:
    [buffer += chunk], then the [while] loop.  Every iteration of the
    loop takes at least two bytes off the buffer, so its length is
    fuel enough. *)
Definition feed (st : bytes * list event_data) (chunk : bytes)
    : option (bytes * list event_data) :=
  let buffer := st.1 ++ chunk in
  while_loop (length buffer) buffer st.2.

Fixpoint async_for (chunks : list bytes) (st : bytes * list event_data)
    : option (bytes * list event_data) :=
  match chunks with
  | [] => Some st
  | chunk :: chunks' => st' ← feed st chunk; async_for chunks' st'
  end.

(** [next((e for e in all_events if e.get("event") == "Answer"), None)] *)
Fixpoint answer_event (all_events : list event_data) : option event_data :=
  match all_events with
  | [] => None
  | e :: es => if is_Answer e then Some e else answer_event es
  end.

(** [str(answer_event.get("data", "")).lower()] *)
Definition answer_data (e : event_data) : str :=
  str_lower match ev_data e with
            | Some (Parsed d) => str_of_data d
            | Some (RawBytes b) => str_of_bytes b
            | None => []
            end.

(** The check after the stream: [False] without an ["Answer"] event or
    when a keyword is missing from the answer, else [True]. *)
Definition verify (all_events : list event_data) : bool :=
  match answer_event all_events with
  | None => false
  | Some e =>
      forallb (λ keyword, contains (str_lower keyword) (answer_data e))
              expected_keywords
  end.

(** [run_single_user_task] as a function of the reply.  Any exception
    inside the [try] gives [False]. *)
Definition run_single_user_task (status_code : Z) (chunks : list bytes) : bool :=
  if bool_decide (status_code ≠ 200%Z) then false
  else match async_for chunks ([], []) with
       | Some (_, all_events) => verify all_events
       | None => false
       end.

(** *** Notions used in the statements *)

(** The [while] loop without its accumulator: the bytes it leaves, the
    events it appends, and whether it left through [break]. *)
Fixpoint scan (fuel : nat) (buffer : bytes)
    : option (bytes * list event_data * bool) :=
  match fuel with
  | O => Some (buffer, [], false)
  | S fuel' =>
      if contains block_sep buffer then
        '(event_block, buffer') ← split_once block_sep buffer;
        e ← parse_block event_block;
        if nonempty e then
          if is_Answer e then Some (buffer', [e], true)
          else '(r, new, brk) ← scan fuel' buffer'; Some (r, e :: new, brk)
        else scan fuel' buffer'
      else Some (buffer, [], false)
  end.

(** The last of the events is an ["Answer"] event. *)
Definition ends_with_Answer (new : list event_data) : bool :=
  match last new with
  | Some e => is_Answer e
  | None => false
  end.

(** A line that takes the [event:] branch, one that takes the [data:]
    branch, and the values the branches store. *)
Definition event_line (line : bytes) : bool :=
  startswith (strip line) event_prefix.

Definition data_line (line : bytes) : bool :=
  startswith (strip line) data_prefix.

Definition event_value (line : bytes) : option str :=
  str_strip <$> decode (drop (length event_prefix) (strip line)).

Definition data_value_of (line : bytes) : data_value :=
  let raw := drop (length data_prefix) (strip line) in
  match decode raw ≫= (λ s, _parse_event_data (str_strip s)) with
  | Some d => Parsed d
  | None => RawBytes (strip raw)
  end.

(** An event was parsed from a block of the stream: the stream holds
    the block followed by a blank line. *)
Definition parsed_from (stream : bytes) (e : event_data) : Prop :=
  ∃ before block after,
    stream = before ++ block ++ block_sep ++ after
    ∧ parse_block block = Some e.

End EventStream.

Arguments Parsed {data} d.
Arguments RawBytes {data} b.
Arguments no_event {data}.
Arguments nonempty {data} e.
Arguments is_Answer {data} e.
Arguments answer_event {data} all_events.
Arguments ends_with_Answer {data} new.

(** ** Counting the results *)

Definition num_users : Z := 20.

(** [sum(1 for r in results if r)] *)
Fixpoint success_count (results : list bool) : Z :=
  match results with
  | [] => 0
  | r :: rs => if r then 1 + success_count rs else success_count rs
  end.

(** [num_users - success_count] *)
Definition failure_count (results : list bool) : Z :=
  num_users - success_count results.

(** [self.assertEqual(failure_count, 0, ...)] passes. *)
Definition test_concurrent_users_passes (results : list bool) : bool :=
  bool_decide (failure_count results = 0%Z).

(** ** An instance for running the parser

    The payload is the text itself, [decode] accepts 7-bit bytes, the
    string functions leave their argument alone. *)
Definition ascii_decode (b : bytes) : option str :=
  if forallb (λ c, (N_of_ascii c <? 128)%N) b
  then Some (N_of_ascii <$> b) else None.

Definition text_payload (s : str) : option str := Some s.


(** A chunk with one complete block, an ["Answer"] event with the data
    ["50"], and one with a block that is not an answer. *)
Definition answer_block : bytes :=
  String.list_ascii_of_string "event: Answer" ++ [LF]
  ++ String.list_ascii_of_string "data: 50".

Definition answer_chunk : bytes := answer_block ++ block_sep.

Definition step_chunk : bytes :=
  String.list_ascii_of_string "event: Step" ++ block_sep.

Definition answer_50 : @event_data str :=
  mk_event_data (Some Answer) (Some (Parsed [53; 48]%N)).

Definition step_event : @event_data str :=
  mk_event_data (Some [83; 116; 101; 112]%N) None.

(** * Proofs *)

(** ** Equations of the primitives and of the four functions *)

Ltac unfold_M :=
  unfold mbind, M_bind, mret, M_ret in *; simpl in *.

Lemma bind_Ok {A B} (m : M A) (k : A → M B) w a w' :
  m w = Ok (a, w') → (m ≫= k) w = k a w'.
Proof. intros E. unfold mbind, M_bind. by rewrite E. Qed.

Lemma bind_Raise {A B} (m : M A) (k : A → M B) w e :
  m w = Raise e → (m ≫= k) w = Raise e.
Proof. intros E. unfold mbind, M_bind. by rewrite E. Qed.

Lemma fresh_unused (h : gmap loc RequestCredentials) :
  h !! fresh (dom h) = None.
Proof. apply not_elem_of_dom, is_fresh. Qed.

Lemma set_request_credentials_eq a p m b u g w :
  set_request_credentials a p m b u g w
  = Ok (tt, world_after_set (mkRequestCredentials a p m b u g) w).
Proof. reflexivity. Qed.

Lemma clear_request_credentials_eq w :
  clear_request_credentials w = Ok (tt, world_after_clear w).
Proof. reflexivity. Qed.

Lemma get_request_credentials_bound w v :
  context w !! var_name _request_credentials = Some v →
  get_request_credentials w = Ok (v, w).
Proof.
  intros E. unfold get_request_credentials, ContextVar_get. by rewrite E.
Qed.

Lemma get_request_credentials_unbound w :
  context w !! var_name _request_credentials = None →
  get_request_credentials w = Ok (PyNone, w).
Proof.
  intros E. unfold get_request_credentials, ContextVar_get. by rewrite E.
Qed.

(** [get] never changes the world and never raises. *)
Lemma get_request_credentials_total w :
  ∃ v, get_request_credentials w = Ok (v, w).
Proof.
  destruct (context w !! var_name _request_credentials) as [v|] eqn:E.
  - exists v. by apply get_request_credentials_bound.
  - exists PyNone. by apply get_request_credentials_unbound.
Qed.

Lemma get_after_set c w :
  get_request_credentials (world_after_set c w)
  = Ok (PyRef (fresh (dom (heap w))), world_after_set c w).
Proof. apply get_request_credentials_bound. simpl. apply lookup_insert_eq. Qed.

Lemma heap_after_set c w :
  heap (world_after_set c w) !! fresh (dom (heap w)) = Some c.
Proof. simpl. apply lookup_insert_eq. Qed.

Lemma get_after_clear w :
  get_request_credentials (world_after_clear w) = Ok (PyNone, world_after_clear w).
Proof. apply get_request_credentials_bound. simpl. apply lookup_insert_eq. Qed.

(** [has] in terms of what [get] returns. *)
Lemma has_request_credentials_None w :
  get_request_credentials w = Ok (PyNone, w) →
  has_request_credentials w = Ok (false, w).
Proof.
  intros E. unfold has_request_credentials.
  fold get_request_credentials. by rewrite (bind_Ok _ _ _ _ _ E).
Qed.

Lemma has_request_credentials_Ref w l c :
  get_request_credentials w = Ok (PyRef l, w) →
  heap w !! l = Some c →
  has_request_credentials w = Ok (bool_decide (api_key c ≠ None), w).
Proof.
  intros E Hl. unfold has_request_credentials.
  fold get_request_credentials. rewrite (bind_Ok _ _ _ _ _ E).
  unfold getattr_api_key, deref. unfold_M. by rewrite Hl.
Qed.

Lemma has_request_credentials_dangling w l :
  get_request_credentials w = Ok (PyRef l, w) →
  heap w !! l = None →
  has_request_credentials w = Raise AttributeError.
Proof.
  intros E Hl. unfold has_request_credentials.
  fold get_request_credentials. rewrite (bind_Ok _ _ _ _ _ E).
  unfold getattr_api_key, deref. unfold_M. by rewrite Hl.
Qed.

(** ** The liveness invariant *)

Lemma live_empty_world : live empty_world.
Proof. exact I. Qed.

Lemma live_never_set w : never_set w → live w.
Proof. unfold never_set, live. by intros ->. Qed.

Lemma live_after_set c w : live (world_after_set c w).
Proof.
  unfold live. simpl. rewrite lookup_insert_eq, lookup_insert_eq. by eexists.
Qed.

Lemma live_after_clear w : live (world_after_clear w).
Proof. unfold live. simpl. by rewrite lookup_insert_eq. Qed.

Lemma live_get_Ref w l :
  live w → get_request_credentials w = Ok (PyRef l, w) → is_Some (heap w !! l).
Proof.
  unfold live, get_request_credentials, ContextVar_get. simpl.
  destruct (context w !! "request_credentials") as [[|l']|]; intros Hl E;
    by simplify_eq.
Qed.

Lemma has_request_credentials_total w :
  live w → ∃ b, has_request_credentials w = Ok (b, w).
Proof.
  intros Hl. destruct (get_request_credentials_total w) as [[|l] E].
  - exists false. by apply has_request_credentials_None.
  - destruct (live_get_Ref _ _ Hl E) as [c Hc].
    eexists. by eapply has_request_credentials_Ref.
Qed.

(** ** Behaviour inside one flow *)

(** C3. In a flow whose context has no binding for the variable (set was
    never called in it), [get_request_credentials()] returns [None] and
    [has_request_credentials()] returns [False]; neither changes the
    state. *)
Theorem fresh_flow_has_no_credentials (w : World) :
  never_set w →
  get_request_credentials w = Ok (PyNone, w)
  ∧ has_request_credentials w = Ok (false, w).
Proof.
  intros Hn. pose proof (get_request_credentials_unbound _ Hn) as E.
  split; [done | by apply has_request_credentials_None].
Qed.

Lemma fresh_flow_has_no_credentials_witness :
  never_set empty_world
  ∧ get_request_credentials empty_world = Ok (PyNone, empty_world)
  ∧ has_request_credentials empty_world = Ok (false, empty_world).
Proof.
  split; [reflexivity | apply (fresh_flow_has_no_credentials empty_world)].
  reflexivity.
Defined.

(** C6. For every choice of the six arguments and every state, after
    [set_request_credentials(a, p, m, b, u, g)] a
    [get_request_credentials()] returns a reference to an instance whose
    six fields are exactly the six arguments: a supplied string comes
    back as that string and an argument left at its default [None] comes
    back as [None]. *)
Theorem set_get_round_trip (a p m b u g : opt_str) (w : World) :
  ∃ w' l c,
    set_request_credentials a p m b u g w = Ok (tt, w')
    ∧ get_request_credentials w' = Ok (PyRef l, w')
    ∧ heap w' !! l = Some c
    ∧ api_key c = a ∧ provider c = p ∧ model c = m
    ∧ base_url c = b ∧ user_id c = u ∧ organization_id c = g.
Proof.
  eexists _, _, _. split; [apply set_request_credentials_eq |].
  split; [apply get_after_set |].
  split; [apply heap_after_set |]. by repeat split.
Qed.

(** C4. Two sets in a row, with any arguments: the following
    [get_request_credentials()] returns an instance built from the
    arguments of the second call alone; none of the first call's fields
    survives.  With [api_key="x"] then [api_key="y"] the result has
    [api_key = "y"] and every other field [None]. *)
Theorem second_set_replaces_first
    (a1 p1 m1 b1 u1 g1 a2 p2 m2 b2 u2 g2 : opt_str) (w : World) :
  ∃ w' l,
    (set_request_credentials a1 p1 m1 b1 u1 g1;;
     set_request_credentials a2 p2 m2 b2 u2 g2) w = Ok (tt, w')
    ∧ get_request_credentials w' = Ok (PyRef l, w')
    ∧ heap w' !! l = Some (mkRequestCredentials a2 p2 m2 b2 u2 g2)
    ∧ get_fields w' = Ok (Some (mkRequestCredentials a2 p2 m2 b2 u2 g2), w').
Proof.
  eexists _, _. split.
  { erewrite bind_Ok by apply set_request_credentials_eq.
    apply set_request_credentials_eq. }
  split; [apply get_after_set |].
  split; [apply heap_after_set |].
  unfold get_fields. erewrite bind_Ok by apply get_after_set.
  unfold fields_of, deref. unfold_M. by rewrite lookup_insert_eq.
Qed.

(** C9. [set_request_credentials()] with no argument binds the flow to an
    instance all of whose fields are [None]: [get] returns a reference
    (where a flow that never set, or one that cleared, gets [None]),
    and [has_request_credentials()] is still [False]. *)
Theorem set_without_arguments_binds_empty_bundle (w : World) :
  ∃ w' l,
    set_request_credentials None None None None None None w = Ok (tt, w')
    ∧ get_request_credentials w' = Ok (PyRef l, w')
    ∧ heap w' !! l = Some no_fields
    ∧ has_request_credentials w' = Ok (false, w')
    ∧ answer (get_request_credentials
                (mkWorld (heap w)
                   (delete (var_name _request_credentials) (context w))))
      = Ok PyNone
    ∧ answer ((clear_request_credentials;; get_request_credentials) w)
      = Ok PyNone.
Proof.
  eexists _, _. split; [apply set_request_credentials_eq |].
  split; [apply get_after_set |].
  split; [apply heap_after_set |].
  split.
  { erewrite has_request_credentials_Ref;
      [| apply get_after_set | apply heap_after_set]. done. }
  split.
  - rewrite get_request_credentials_unbound; [done |].
    simpl. apply lookup_delete_eq.
  - erewrite bind_Ok by apply clear_request_credentials_eq.
    by rewrite get_after_clear.
Qed.

(** C10. In every state [clear_request_credentials()] succeeds and leaves
    a flow without credentials ([get] returns [None], [has] returns
    [False]); that covers a flow that never set and one already cleared.
    A second clear changes nothing: clear twice is clear once, as
    states. *)
Theorem clear_is_idempotent (w : World) :
  ∃ w1,
    clear_request_credentials w = Ok (tt, w1)
    ∧ get_request_credentials w1 = Ok (PyNone, w1)
    ∧ has_request_credentials w1 = Ok (false, w1)
    ∧ clear_request_credentials w1 = Ok (tt, w1)
    ∧ (clear_request_credentials;; clear_request_credentials) w
      = clear_request_credentials w.
Proof.
  assert (Hcc : clear_request_credentials (world_after_clear w)
                = Ok (tt, world_after_clear w)).
  { rewrite clear_request_credentials_eq. unfold world_after_clear. simpl.
    by rewrite insert_insert_eq. }
  exists (world_after_clear w).
  split; [apply clear_request_credentials_eq |].
  split; [apply get_after_clear |].
  split; [apply has_request_credentials_None, get_after_clear |].
  split; [done |].
  erewrite bind_Ok by apply clear_request_credentials_eq.
  by rewrite Hcc.
Qed.

(** ** The presence test *)

(** What the test computes.  In every state without dangling references
    [has_request_credentials()] returns, and it returns [True] exactly
    when [get_request_credentials()] returns a reference to an instance
    whose [api_key] is not [None].  On an empty key this departs from the
    gate of the module docstring; see the next lemma. *)
Theorem has_credentials_iff_api_key_not_None (w : World) :
  live w →
  ∃ r, has_request_credentials w = Ok (r, w)
       ∧ (r = true ↔
          ∃ l c, get_request_credentials w = Ok (PyRef l, w)
                 ∧ heap w !! l = Some c
                 ∧ api_key c ≠ None).
Proof.
  intros Hl. destruct (get_request_credentials_total w) as [[|l] E].
  - exists false. split; [by apply has_request_credentials_None |].
    split; [done |]. intros (l & c & E' & _). congruence.
  - destruct (live_get_Ref _ _ Hl E) as [c Hc].
    exists (bool_decide (api_key c ≠ None)).
    split; [by eapply has_request_credentials_Ref |].
    rewrite bool_decide_eq_true. split.
    + intros Hk. by exists l, c.
    + intros (l' & c' & E' & Hc' & Hk).
      rewrite E in E'. injection E' as <-.
      rewrite Hc in Hc'. by injection Hc' as <-.
Qed.

Lemma has_credentials_iff_api_key_not_None_witness :
  live empty_key_world
  ∧ ∃ r, has_request_credentials empty_key_world = Ok (r, empty_key_world)
         ∧ (r = true ↔
            ∃ l c, get_request_credentials empty_key_world
                   = Ok (PyRef l, empty_key_world)
                   ∧ heap empty_key_world !! l = Some c
                   ∧ api_key c ≠ None).
Proof.
  assert (Hl : live empty_key_world) by (vm_compute; eauto).
  split; [exact Hl |].
  exact (has_credentials_iff_api_key_not_None empty_key_world Hl).
Defined.

(** C1.  The presence test on an empty key.  In a flow started from an
    empty context, [set_request_credentials(api_key="")] leaves a bundle
    whose [api_key] is the empty string.  There
    [has_request_credentials()] returns [True], although the bundle has
    no non-empty key, and although the gate the module docstring gives
    its callers ([creds and creds.api_key]) is false and falls back to
    the environment.  A flow with no bundle gets [False] from both, so
    the empty key is not treated like no bundle. *)
Lemma has_request_credentials_accepts_empty_api_key :
  set_request_credentials (Some "") None None None None None empty_world
  = Ok (tt, empty_key_world)
  ∧ has_request_credentials empty_key_world = Ok (true, empty_key_world)
  ∧ caller_gate empty_key_world = Ok (false, empty_key_world)
  ∧ ¬ spec_has_credentials empty_key_world
  ∧ has_request_credentials empty_world = Ok (false, empty_world)
  ∧ caller_gate empty_world = Ok (false, empty_world).
Proof.
  split; [vm_compute; reflexivity |].
  split; [vm_compute; reflexivity |].
  split; [vm_compute; reflexivity |].
  split; [| split; vm_compute; reflexivity].
  intros (l & b & k & E & Hb & Hk & Hne).
  assert (l = 1%positive) as -> by (vm_compute in E; congruence).
  vm_compute in Hb. injection Hb as <-.
  simpl in Hk. injection Hk as <-. by apply Hne.
Qed.

(** ** Sequences of calls *)

(** One call from a state without dangling references: it returns, the
    invariant still holds, and every instance that was on the heap is
    still there with the same fields. *)
Lemma run_op_live (o : op) (w : World) :
  live w →
  ∃ x w', run_op o w = Ok (x, w') ∧ live w' ∧ heap w ⊆ heap w'.
Proof.
  intros Hl. destruct o as [a p m b u g | | |]; simpl.
  - exists OutNone, (world_after_set (mkRequestCredentials a p m b u g) w).
    split; [by erewrite bind_Ok by apply set_request_credentials_eq |].
    split; [apply live_after_set |].
    simpl. apply insert_subseteq, fresh_unused.
  - destruct (get_request_credentials_total w) as [v E].
    exists (OutValue v), w. by erewrite bind_Ok by exact E.
  - exists OutNone, (world_after_clear w).
    split; [by erewrite bind_Ok by apply clear_request_credentials_eq |].
    split; [apply live_after_clear | done].
  - destruct (has_request_credentials_total w Hl) as [r E].
    exists (OutBool r), w. by erewrite bind_Ok by exact E.
Qed.

Lemma run_ops_live (os : list op) (w : World) :
  live w →
  ∃ xs w', run_ops os w = Ok (xs, w') ∧ live w' ∧ heap w ⊆ heap w'.
Proof.
  revert w. induction os as [| o os IH]; intros w Hl; simpl.
  - by exists [], w.
  - destruct (run_op_live o w Hl) as (x & w1 & E1 & Hl1 & Hsub1).
    destruct (IH w1 Hl1) as (xs & w2 & E2 & Hl2 & Hsub2).
    exists (x :: xs), w2. split.
    + erewrite bind_Ok by exact E1. by erewrite bind_Ok by exact E2.
    + split; [done | by etrans].
Qed.

(** Reading the fields behind a value gives the same answer in any
    larger heap. *)
Lemma fields_of_weaken (v : value) (c : option RequestCredentials) (w w' : World) :
  heap w ⊆ heap w' →
  fields_of v w = Ok (c, w) → fields_of v w' = Ok (c, w').
Proof.
  intros Hsub. destruct v as [| l]; simpl.
  - unfold_M. congruence.
  - unfold deref. unfold_M.
    destruct (heap w !! l) as [b |] eqn:Hb; [| done].
    rewrite (lookup_weaken _ _ _ _ Hb Hsub). congruence.
Qed.

Lemma fields_of_live (w : World) (v : value) :
  live w → get_request_credentials w = Ok (v, w) →
  ∃ c, fields_of v w = Ok (c, w).
Proof.
  intros Hl E. destruct v as [| l].
  - by exists None.
  - destruct (live_get_Ref _ _ Hl E) as [b Hb]. exists (Some b).
    simpl. unfold deref. unfold_M. by rewrite Hb.
Qed.

(** C7. None of the four functions can raise: in every state without
    dangling references [set] returns for every choice of its six
    arguments (strings, empty strings and [None] alike, nothing is
    validated), [get], [clear] and [has] return, and so does every
    sequence of calls. *)
Theorem operations_never_raise (w : World) :
  live w →
  (∀ a p m b u g : opt_str,
     ∃ w', set_request_credentials a p m b u g w = Ok (tt, w'))
  ∧ (∃ v, get_request_credentials w = Ok (v, w))
  ∧ (∃ w', clear_request_credentials w = Ok (tt, w'))
  ∧ (∃ r, has_request_credentials w = Ok (r, w))
  ∧ (∀ os : list op, ∃ xs w', run_ops os w = Ok (xs, w')).
Proof.
  intros Hl.
  split; [intros; eexists; apply set_request_credentials_eq |].
  split; [apply get_request_credentials_total |].
  split; [eexists; apply clear_request_credentials_eq |].
  split; [by apply has_request_credentials_total |].
  intros os. destruct (run_ops_live os w Hl) as (xs & w' & E & _).
  by exists xs, w'.
Qed.

Lemma operations_never_raise_witness :
  live empty_key_world
  ∧ (∀ a p m b u g : opt_str,
       ∃ w', set_request_credentials a p m b u g empty_key_world = Ok (tt, w'))
  ∧ (∃ v, get_request_credentials empty_key_world = Ok (v, empty_key_world))
  ∧ (∃ w', clear_request_credentials empty_key_world = Ok (tt, w'))
  ∧ (∃ r, has_request_credentials empty_key_world = Ok (r, empty_key_world))
  ∧ (∀ os : list op, ∃ xs w', run_ops os empty_key_world = Ok (xs, w')).
Proof.
  assert (Hl : live empty_key_world) by (vm_compute; eauto).
  split; [exact Hl |].
  exact (operations_never_raise empty_key_world Hl).
Defined.

(** C8. No call changes an instance that already exists.  From a state
    without dangling references, let [v] be what [get] returns and [c]
    the fields read behind it.  After any sequence of calls every
    instance of the old heap is in the new heap with the same fields,
    and reading behind [v] still gives [c].  And [set] puts its bundle
    at an identity that no instance had before: it installs a new
    instance and leaves the old ones as they were. *)
Theorem store_never_mutates_a_bundle (w : World) :
  live w →
  ∃ v c,
    get_request_credentials w = Ok (v, w)
    ∧ fields_of v w = Ok (c, w)
    ∧ (∀ os : list op,
         ∃ xs w', run_ops os w = Ok (xs, w')
                  ∧ heap w ⊆ heap w'
                  ∧ fields_of v w' = Ok (c, w'))
    ∧ (∀ a p m b u g : opt_str,
         ∃ w' l, set_request_credentials a p m b u g w = Ok (tt, w')
                 ∧ get_request_credentials w' = Ok (PyRef l, w')
                 ∧ heap w !! l = None
                 ∧ heap w' !! l = Some (mkRequestCredentials a p m b u g)
                 ∧ heap w ⊆ heap w').
Proof.
  intros Hl. destruct (get_request_credentials_total w) as [v E].
  destruct (fields_of_live w v Hl E) as [c Hc].
  exists v, c. split; [done |]. split; [done |]. split.
  - intros os. destruct (run_ops_live os w Hl) as (xs & w' & Er & _ & Hsub).
    exists xs, w'. split; [done |]. split; [done |].
    by eapply fields_of_weaken.
  - intros a p m b u g. eexists _, _.
    split; [apply set_request_credentials_eq |].
    split; [apply get_after_set |].
    split; [apply fresh_unused |].
    split; [apply heap_after_set |].
    simpl. apply insert_subseteq, fresh_unused.
Qed.

Lemma store_never_mutates_a_bundle_witness :
  live empty_key_world
  ∧ ∃ v c,
      get_request_credentials empty_key_world = Ok (v, empty_key_world)
      ∧ fields_of v empty_key_world = Ok (c, empty_key_world)
      ∧ (∀ os : list op,
           ∃ xs w', run_ops os empty_key_world = Ok (xs, w')
                    ∧ heap empty_key_world ⊆ heap w'
                    ∧ fields_of v w' = Ok (c, w'))
      ∧ (∀ a p m b u g : opt_str,
           ∃ w' l,
             set_request_credentials a p m b u g empty_key_world = Ok (tt, w')
             ∧ get_request_credentials w' = Ok (PyRef l, w')
             ∧ heap empty_key_world !! l = None
             ∧ heap w' !! l = Some (mkRequestCredentials a p m b u g)
             ∧ heap empty_key_world ⊆ heap w').
Proof.
  assert (Hl : live empty_key_world) by (vm_compute; eauto).
  split; [exact Hl |].
  exact (store_never_mutates_a_bundle empty_key_world Hl).
Defined.

(** The heap of the model does allow assignment: an [api_key] assigned
    through the reference [get] returned is what the next read sees.  So
    the theorem above is a fact about the four functions, not about the
    model. *)
Remark assignment_through_reference_is_visible :
  answer ((setattr_api_key 1 (Some "z");; get_fields) empty_key_world)
  = Ok (Some (mkRequestCredentials (Some "z") None None None None None)).
Proof. vm_compute. reflexivity. Qed.

(** ** Clearing *)

Lemma view_has_spec (w : World) : view_spec w (view w).
Proof.
  unfold view, get_fields.
  destruct (get_request_credentials_total w) as [[| l] E];
    erewrite bind_Ok by exact E; simpl.
  - by constructor.
  - unfold deref. unfold_M.
    destruct (heap w !! l) as [c |] eqn:Hc; simpl.
    + by econstructor.
    + by econstructor.
Qed.

Lemma get_fields_view (w : World) :
  get_fields w
  = match view w with Ok c => Ok (c, w) | Raise e => Raise e end.
Proof.
  unfold view, get_fields.
  destruct (get_request_credentials_total w) as [[| l] E];
    erewrite bind_Ok by exact E; simpl; [done |].
  unfold deref. unfold_M. by destruct (heap w !! l).
Qed.

Lemma view_after_set c w : view (world_after_set c w) = Ok (Some c).
Proof.
  unfold view, get_fields. erewrite bind_Ok by apply get_after_set.
  simpl. unfold deref. unfold_M. by rewrite lookup_insert_eq.
Qed.

Lemma view_after_clear w : view (world_after_clear w) = Ok None.
Proof.
  unfold view, get_fields. by erewrite bind_Ok by apply get_after_clear.
Qed.

Lemma view_never_set w : never_set w → view w = Ok None.
Proof.
  intros Hn. unfold view, get_fields.
  by erewrite bind_Ok by (by apply get_request_credentials_unbound).
Qed.

(** What [has] answers is a function of the view. *)
Lemma has_request_credentials_view (w : World) :
  has_request_credentials w
  = match view w with
    | Ok None => Ok (false, w)
    | Ok (Some c) => Ok (bool_decide (api_key c ≠ None), w)
    | Raise e => Raise e
    end.
Proof.
  destruct (view_has_spec w) as [E | l c E Hc | l E Hc].
  - by apply has_request_credentials_None.
  - by eapply has_request_credentials_Ref.
  - by eapply has_request_credentials_dangling.
Qed.

Lemma observe_get_view (w : World) :
  observe_op CallGet w
  = match view w with
    | Ok c => Ok (ObsBundle c, w)
    | Raise e => Raise e
    end.
Proof.
  pose proof (get_fields_view w) as Hv. unfold get_fields in Hv.
  unfold observe_op. simpl.
  destruct (get_request_credentials_total w) as [v E].
  rewrite (bind_Ok _ _ _ _ _ E) in Hv.
  erewrite bind_Ok; [| by erewrite bind_Ok by exact E]. simpl.
  unfold mbind at 1, M_bind at 1. rewrite Hv. by destruct (view w).
Qed.

Lemma observe_has_view (w : World) :
  observe_op CallHas w
  = match view w with
    | Ok None => Ok (ObsBool false, w)
    | Ok (Some c) => Ok (ObsBool (bool_decide (api_key c ≠ None)), w)
    | Raise e => Raise e
    end.
Proof.
  unfold observe_op. simpl. unfold mbind, M_bind.
  rewrite has_request_credentials_view. by destruct (view w) as [[c |] | e].
Qed.

(** Two states in which the flow reads the same credentials answer one
    call alike and read the same credentials afterwards. *)
Lemma observe_op_same_view (o : op) (w1 w2 : World) :
  view w1 = view w2 →
  (∃ x w1' w2', observe_op o w1 = Ok (x, w1')
                ∧ observe_op o w2 = Ok (x, w2')
                ∧ view w1' = view w2')
  ∨ (∃ e, observe_op o w1 = Raise e ∧ observe_op o w2 = Raise e).
Proof.
  intros Hv. destruct o as [a p m b u g | | |].
  - left.
    exists ObsNone, (world_after_set (mkRequestCredentials a p m b u g) w1),
           (world_after_set (mkRequestCredentials a p m b u g) w2).
    split; [reflexivity |]. split; [reflexivity |].
    by rewrite !view_after_set.
  - rewrite !observe_get_view, Hv.
    destruct (view w2) as [c | e] eqn:Hv2; [left | right].
    + exists (ObsBundle c), w1, w2. repeat split; congruence.
    + by exists e.
  - left. exists ObsNone, (world_after_clear w1), (world_after_clear w2).
    split; [reflexivity |]. split; [reflexivity |].
    by rewrite !view_after_clear.
  - rewrite !observe_has_view, Hv.
    destruct (view w2) as [[c |] | e] eqn:Hv2; [left | left | right].
    + exists (ObsBool (bool_decide (api_key c ≠ None))), w1, w2.
      repeat split; congruence.
    + exists (ObsBool false), w1, w2. repeat split; congruence.
    + by exists e.
Qed.

Lemma observe_ops_same_view (os : list op) (w1 w2 : World) :
  view w1 = view w2 →
  answer (observe_ops os w1) = answer (observe_ops os w2).
Proof.
  revert w1 w2. induction os as [| o os IH]; intros w1 w2 Hv; simpl; [done |].
  destruct (observe_op_same_view o w1 w2 Hv)
    as [(x & w1' & w2' & E1 & E2 & Hv') | (e & E1 & E2)].
  - rewrite (bind_Ok _ _ _ _ _ E1), (bind_Ok _ _ _ _ _ E2).
    specialize (IH w1' w2' Hv'). unfold mbind, M_bind.
    destruct (observe_ops os w1') as [[xs1 ?] | e1],
             (observe_ops os w2') as [[xs2 ?] | e2];
      simpl in *; congruence.
  - by rewrite (bind_Raise _ _ _ _ E1), (bind_Raise _ _ _ _ E2).
Qed.

(** In a flow without credentials, a call other than [set] hands back
    [unbound_out] and leaves the flow without credentials. *)
Lemma run_op_unbound (o : op) (w : World) :
  is_set o = false →
  get_request_credentials w = Ok (PyNone, w) →
  ∃ w', run_op o w = Ok (unbound_out o, w')
        ∧ get_request_credentials w' = Ok (PyNone, w').
Proof.
  intros Ho E. destruct o as [a p m b u g | | |]; [done | | |]; simpl.
  - exists w. by erewrite bind_Ok by exact E.
  - exists (world_after_clear w). split; [done | apply get_after_clear].
  - exists w.
    by erewrite bind_Ok by (by apply has_request_credentials_None).
Qed.

Lemma run_ops_unbound (os : list op) (w : World) :
  get_request_credentials w = Ok (PyNone, w) →
  answer (run_ops (before_set os) w) = Ok (unbound_out <$> before_set os).
Proof.
  revert w. induction os as [| o os IH]; intros w E; simpl; [done |].
  destruct (is_set o) eqn:Ho; simpl; [done |].
  destruct (run_op_unbound o w Ho E) as (w' & E1 & E').
  rewrite (bind_Ok _ _ _ _ _ E1). specialize (IH w' E').
  unfold mbind, M_bind.
  destruct (run_ops (before_set os) w') as [[xs ?] | e];
    simpl in *; [by injection IH as -> | done].
Qed.

(** C5. [clear_request_credentials()] puts the flow, whatever its state,
    on a par with a flow [w0] in which set was never called.  Until a new
    set occurs every [get] returns [None] and every [has] returns
    [False]; and over any sequence of later calls, sets included, the
    cleared flow and the never-set flow make the same observations. *)
Theorem clear_resets_to_never_set (w w0 : World) :
  never_set w0 →
  ∃ w1,
    clear_request_credentials w = Ok (tt, w1)
    ∧ get_request_credentials w1 = Ok (PyNone, w1)
    ∧ has_request_credentials w1 = Ok (false, w1)
    ∧ (∀ os : list op,
         answer (run_ops (before_set os) w1)
         = Ok (unbound_out <$> before_set os))
    ∧ (∀ os : list op,
         answer (observe_ops os w1) = answer (observe_ops os w0)).
Proof.
  intros Hn. exists (world_after_clear w).
  split; [apply clear_request_credentials_eq |].
  split; [apply get_after_clear |].
  split; [apply has_request_credentials_None, get_after_clear |].
  split.
  - intros os. apply run_ops_unbound, get_after_clear.
  - intros os. apply observe_ops_same_view.
    by rewrite view_after_clear, view_never_set.
Qed.

Lemma clear_resets_to_never_set_witness :
  never_set empty_world
  ∧ ∃ w1,
      clear_request_credentials empty_key_world = Ok (tt, w1)
      ∧ get_request_credentials w1 = Ok (PyNone, w1)
      ∧ has_request_credentials w1 = Ok (false, w1)
      ∧ (∀ os : list op,
           answer (run_ops (before_set os) w1)
           = Ok (unbound_out <$> before_set os))
      ∧ (∀ os : list op,
           answer (observe_ops os w1) = answer (observe_ops os empty_world)).
Proof.
  split; [reflexivity |].
  apply (clear_resets_to_never_set empty_key_world empty_world).
  reflexivity.
Defined.

(** * Further properties of the credential context *)

(** ** The last write decides *)

Lemma view_live (w : World) : live w → ∃ c, view w = Ok c.
Proof.
  intros Hl. destruct (view_has_spec w) as [E | l c E Hc | l E Hc]; eauto.
  destruct (live_get_Ref _ _ Hl E) as [c Hc']. congruence.
Qed.

Lemma run_op_view (o : op) (w : World) :
  live w →
  ∃ x w', run_op o w = Ok (x, w') ∧ live w'
          ∧ view w' = match write_of o with
                      | Some c => Ok c
                      | None => view w
                      end.
Proof.
  intros Hl. destruct o as [a p m b u g | | |]; simpl.
  - exists OutNone, (world_after_set (mkRequestCredentials a p m b u g) w).
    split; [done |]. split; [apply live_after_set | apply view_after_set].
  - destruct (get_request_credentials_total w) as [v E].
    exists (OutValue v), w. by erewrite bind_Ok by exact E.
  - exists OutNone, (world_after_clear w).
    split; [done |]. split; [apply live_after_clear | apply view_after_clear].
  - destruct (has_request_credentials_total w Hl) as [r E].
    exists (OutBool r), w. by erewrite bind_Ok by exact E.
Qed.

Lemma run_ops_view (os : list op) (w : World) :
  live w →
  ∃ xs w', run_ops os w = Ok (xs, w') ∧ live w'
           ∧ view w' = match last_write os with
                       | Some c => Ok c
                       | None => view w
                       end.
Proof.
  revert w. induction os as [| o os IH]; intros w Hl; simpl.
  - by exists [], w.
  - destruct (run_op_view o w Hl) as (x & w1 & E1 & Hl1 & Hv1).
    destruct (IH w1 Hl1) as (xs & w2 & E2 & Hl2 & Hv2).
    exists (x :: xs), w2. split.
    { erewrite bind_Ok by exact E1. by erewrite bind_Ok by exact E2. }
    split; [done |]. rewrite Hv2.
    destruct (last_write os); [done |]. by rewrite Hv1.
Qed.

(** X1. After any sequence of calls, what the flow reads depends on the
    last [set] or [clear] of the sequence alone: [get] returns the bundle
    of that [set] (or [None] after a [clear]), and [has] answers
    accordingly; with no write in the sequence both answer as before
    it. *)
Theorem last_write_decides (w : World) :
  live w →
  ∀ os : list op,
    ∃ xs w' c0 c,
      run_ops os w = Ok (xs, w')
      ∧ get_fields w = Ok (c0, w)
      ∧ c = default c0 (last_write os)
      ∧ get_fields w' = Ok (c, w')
      ∧ has_request_credentials w' = Ok (has_of c, w').
Proof.
  intros Hl os.
  destruct (run_ops_view os w Hl) as (xs & w' & E & Hl' & Hv).
  destruct (view_live w Hl) as [c0 Hc0].
  exists xs, w', c0, (default c0 (last_write os)).
  split; [done |].
  split; [by rewrite get_fields_view, Hc0 |].
  split; [done |].
  assert (view w' = Ok (default c0 (last_write os))) as Hv'.
  { rewrite Hv. destruct (last_write os); [done | by rewrite Hc0]. }
  split; [by rewrite get_fields_view, Hv' |].
  rewrite has_request_credentials_view, Hv'.
  by destruct (default c0 (last_write os)).
Qed.

Lemma last_write_decides_witness :
  live empty_key_world
  ∧ ∀ os : list op,
      ∃ xs w' c0 c,
        run_ops os empty_key_world = Ok (xs, w')
        ∧ get_fields empty_key_world = Ok (c0, empty_key_world)
        ∧ c = default c0 (last_write os)
        ∧ get_fields w' = Ok (c, w')
        ∧ has_request_credentials w' = Ok (has_of c, w').
Proof.
  assert (Hl : live empty_key_world) by (vm_compute; eauto).
  split; [exact Hl |].
  exact (last_write_decides empty_key_world Hl).
Defined.

(** ** Footprint *)

Lemma run_op_frame (o : op) (w w' : World) (x : out) :
  run_op o w = Ok (x, w') →
  delete (var_name _request_credentials) (context w')
  = delete (var_name _request_credentials) (context w).
Proof.
  destruct o as [a p m b u g | | |]; simpl.
  - intros [= <- <-]. simpl. apply delete_insert_eq.
  - destruct (get_request_credentials_total w) as [v E].
    erewrite bind_Ok by exact E. by intros [= <- <-].
  - intros [= <- <-]. simpl. apply delete_insert_eq.
  - unfold mbind at 1, M_bind. rewrite has_request_credentials_view.
    destruct (view w) as [[c |] | e]; unfold_M; congruence.
Qed.

Lemma run_ops_frame (os : list op) (w w' : World) (xs : list out) :
  run_ops os w = Ok (xs, w') →
  delete (var_name _request_credentials) (context w')
  = delete (var_name _request_credentials) (context w).
Proof.
  revert w xs. induction os as [| o os IH]; intros w xs; simpl.
  - by intros [= <- <-].
  - unfold mbind at 1, M_bind at 1.
    destruct (run_op o w) as [[x w1] | e] eqn:E1; [| done].
    unfold mbind at 1, M_bind at 1.
    destruct (run_ops os w1) as [[xs1 w2] | e] eqn:E2; [| done].
    intros [= <- <-]. etrans; [by eapply IH | by eapply run_op_frame].
Qed.

(** X2. The four functions touch one binding only.  Whatever the flow
    calls, every other variable of its context keeps the binding (or the
    absence of one) it had: the contexts before and after agree once
    ["request_credentials"] is taken out of both. *)
Theorem other_context_variables_untouched (w : World) :
  live w →
  ∀ os : list op,
    ∃ xs w',
      run_ops os w = Ok (xs, w')
      ∧ delete (var_name _request_credentials) (context w')
        = delete (var_name _request_credentials) (context w)
      ∧ ∀ y : string, y ≠ "request_credentials" →
                      context w' !! y = context w !! y.
Proof.
  intros Hl os. destruct (run_ops_live os w Hl) as (xs & w' & E & _ & _).
  exists xs, w'. split; [done |].
  pose proof (run_ops_frame _ _ _ _ E) as Hd. split; [done |].
  intros y Hy.
  rewrite <- (lookup_delete_ne (context w') "request_credentials" y) by done.
  rewrite <- (lookup_delete_ne (context w) "request_credentials" y) by done.
  simpl in Hd. by rewrite Hd.
Qed.

Lemma other_context_variables_untouched_witness :
  live empty_key_world
  ∧ ∀ os : list op,
      ∃ xs w',
        run_ops os empty_key_world = Ok (xs, w')
        ∧ delete (var_name _request_credentials) (context w')
          = delete (var_name _request_credentials) (context empty_key_world)
        ∧ ∀ y : string, y ≠ "request_credentials" →
                        context w' !! y = context empty_key_world !! y.
Proof.
  assert (Hl : live empty_key_world) by (vm_compute; eauto).
  split; [exact Hl |].
  exact (other_context_variables_untouched empty_key_world Hl).
Defined.

(** ** The presence test after a set *)

(** X3. Straight after [set_request_credentials(api_key=a, ...)], in any
    state, [has_request_credentials()] returns [True] exactly when [a] is
    not [None]; the other five arguments and the earlier binding play no
    part. *)
Theorem has_after_set_tests_api_key (a p m b u g : opt_str) (w : World) :
  answer ((set_request_credentials a p m b u g;; has_request_credentials) w)
  = Ok (bool_decide (a ≠ None)).
Proof.
  erewrite bind_Ok by apply set_request_credentials_eq.
  erewrite has_request_credentials_Ref;
    [| apply get_after_set | apply heap_after_set].
  done.
Qed.

(** ** The caller's gate and the presence test *)

Lemma caller_gate_view (w : World) :
  caller_gate w
  = match view w with
    | Ok None => Ok (false, w)
    | Ok (Some c) => Ok (truthy (api_key c), w)
    | Raise e => Raise e
    end.
Proof.
  unfold caller_gate.
  destruct (view_has_spec w) as [E | l c E Hc | l E Hc];
    rewrite (bind_Ok _ _ _ _ _ E); [done | |];
    unfold getattr_api_key, deref; unfold_M; by rewrite Hc.
Qed.

(** X4. The gate of the module docstring ([creds and creds.api_key]) and
    [has_request_credentials()] agree except on an empty key.  In every
    state both return; when the gate is true so is [has]; and [has] is
    true with the gate false exactly when the bound bundle's [api_key] is
    the empty string. *)
Theorem caller_gate_and_has_differ_on_empty_key (w : World) :
  live w →
  ∃ gate has c,
    caller_gate w = Ok (gate, w)
    ∧ has_request_credentials w = Ok (has, w)
    ∧ get_fields w = Ok (c, w)
    ∧ (gate = true → has = true)
    ∧ (has = true ∧ gate = false ↔ ∃ b, c = Some b ∧ api_key b = Some "").
Proof.
  intros Hl. destruct (view_live w Hl) as [c Hc].
  exists (match c with Some b => truthy (api_key b) | None => false end),
         (has_of c), c.
  split; [rewrite caller_gate_view, Hc; by destruct c |].
  split; [rewrite has_request_credentials_view, Hc; by destruct c |].
  split; [by rewrite get_fields_view, Hc |].
  destruct c as [b |]; simpl.
  - destruct (api_key b) as [k |] eqn:Hk; simpl.
    + split; [done |]. rewrite bool_decide_eq_false. split.
      * intros [_ Hne]. exists b. split; [done |].
        destruct (decide (k = "")) as [-> | ?]; [done | by destruct Hne].
      * intros (b' & [= <-] & Hk'). rewrite Hk in Hk'.
        injection Hk' as ->. split; [done | by intros []].
    + split; [done |]. split; [by intros [? _] |].
      intros (b' & [= <-] & Hk'). congruence.
  - split; [done |]. split; [by intros [? _] | by intros (? & ? & _)].
Qed.

Lemma caller_gate_and_has_differ_on_empty_key_witness :
  live empty_key_world
  ∧ ∃ gate has c,
      caller_gate empty_key_world = Ok (gate, empty_key_world)
      ∧ has_request_credentials empty_key_world = Ok (has, empty_key_world)
      ∧ get_fields empty_key_world = Ok (c, empty_key_world)
      ∧ (gate = true → has = true)
      ∧ (has = true ∧ gate = false ↔ ∃ b, c = Some b ∧ api_key b = Some "").
Proof.
  assert (Hl : live empty_key_world) by (vm_compute; eauto).
  split; [exact Hl |].
  exact (caller_gate_and_has_differ_on_empty_key empty_key_world Hl).
Defined.

(** ** References are handed out, not copies *)

(** X5. [get_request_credentials()] returns the stored instance itself,
    and the dataclass is not frozen.  So when a caller assigns
    [api_key = v] through the reference [get] returned, the flow's
    binding is unchanged, the instance keeps its other five fields, and
    from then on [get] shows the new key and [has] answers for [v]. *)
Theorem assignment_through_get_changes_the_flow
    (w : World) (l : loc) (c : RequestCredentials) (v : opt_str) :
  get_request_credentials w = Ok (PyRef l, w) →
  heap w !! l = Some c →
  ∃ w',
    setattr_api_key l v w = Ok (tt, w')
    ∧ get_request_credentials w' = Ok (PyRef l, w')
    ∧ heap w' !! l
      = Some (mkRequestCredentials v (provider c) (model c) (base_url c)
                                   (user_id c) (organization_id c))
    ∧ has_request_credentials w' = Ok (bool_decide (v ≠ None), w').
Proof.
  intros E Hc.
  set (c' := mkRequestCredentials v (provider c) (model c) (base_url c)
                                  (user_id c) (organization_id c)).
  set (w' := mkWorld (<[l := c']> (heap w)) (context w)).
  assert (E' : get_request_credentials w' = Ok (PyRef l, w')).
  { unfold get_request_credentials, ContextVar_get in *. simpl in *.
    destruct (context w !! "request_credentials") as [v' |];
      simplify_eq; done. }
  assert (Hc' : heap w' !! l = Some c') by apply lookup_insert_eq.
  exists w'. split.
  { unfold setattr_api_key, deref, store. unfold_M. by rewrite Hc. }
  split; [done |]. split; [done |].
  by rewrite (has_request_credentials_Ref _ _ _ E' Hc').
Qed.

Lemma assignment_through_get_changes_the_flow_witness :
  get_request_credentials empty_key_world = Ok (PyRef 1, empty_key_world)
  ∧ heap empty_key_world !! 1%positive
    = Some (mkRequestCredentials (Some "") None None None None None)
  ∧ ∃ w',
      setattr_api_key 1 None empty_key_world = Ok (tt, w')
      ∧ get_request_credentials w' = Ok (PyRef 1, w')
      ∧ heap w' !! 1%positive
        = Some (mkRequestCredentials None None None None None None)
      ∧ has_request_credentials w' = Ok (false, w').
Proof.
  assert (E : get_request_credentials empty_key_world
              = Ok (PyRef 1, empty_key_world)) by reflexivity.
  assert (Hc : heap empty_key_world !! 1%positive
               = Some (mkRequestCredentials (Some "") None None None None None))
    by reflexivity.
  split; [exact E |]. split; [exact Hc |].
  exact (assignment_through_get_changes_the_flow empty_key_world 1 _ None E Hc).
Defined.

(** * Isolation between flows *)












(** The theorem rests on [set] building a new instance.  The two flows of
    [shared_runtime] are bound to one instance; flow 1 reads the key
    ["k"] and still does after flow 0 calls
    [set_request_credentials(api_key="z")], but an assignment to the
    instance made in flow 0 is what flow 1 reads next. *)
Remark in_place_update_would_leak :
  answer (get_fields (world_of shared_runtime 1))
  = Ok (Some (mkRequestCredentials (Some "k") None None None None None))
  ∧ (∃ rt', in_flow 0 (set_request_credentials (Some "z") None None None None None)
                    shared_runtime = Ok (tt, rt')
            ∧ answer (get_fields (world_of rt' 1))
              = Ok (Some (mkRequestCredentials (Some "k") None None None None None)))
  ∧ (∃ rt', in_flow 0 (setattr_api_key 1 (Some "z")) shared_runtime = Ok (tt, rt')
            ∧ answer (get_fields (world_of rt' 1))
              = Ok (Some (mkRequestCredentials (Some "z") None None None None None))).
Proof.
  split; [vm_compute; reflexivity |].
  split; eexists; (split; [vm_compute; reflexivity |]); vm_compute; reflexivity.
Qed.

(** * Properties of the load test *)

(** ** Byte strings *)

Open Scope nat_scope.

Lemma startswith_prefix {A} `{EqDecision A} (b p : list A) :
  startswith b p = true ↔ ∃ k, b = p ++ k.
Proof.
  revert b. induction p as [| x p IH]; intros b; simpl.
  - split; [intros _; by exists b | done].
  - destruct b as [| y b]; simpl.
    + split; [done | by intros [k ?]].
    + rewrite andb_true_iff, bool_decide_eq_true, IH. split.
      * intros [-> [k ->]]. by exists k.
      * intros [k [= -> ->]]. eauto.
Qed.

Lemma startswith_app {A} `{EqDecision A} (b p c : list A) :
  startswith b p = true → startswith (b ++ c) p = true.
Proof.
  rewrite !startswith_prefix. intros [k ->]. exists (k ++ c).
  by rewrite (assoc_L (++)).
Qed.

Lemma startswith_length {A} `{EqDecision A} (b p : list A) :
  startswith b p = true → length p ≤ length b.
Proof.
  rewrite startswith_prefix. intros [k ->]. rewrite length_app. lia.
Qed.

Lemma startswith_app_long {A} `{EqDecision A} (b p c : list A) :
  length p ≤ length b → startswith (b ++ c) p = startswith b p.
Proof.
  revert b. induction p as [| x p IH]; intros b Hlen; [by destruct b |].
  destruct b as [| y b]; simpl in *; [lia |].
  rewrite IH by lia. done.
Qed.

Lemma split_once_Some (sep b before after : bytes) :
  split_once sep b = Some (before, after) → b = before ++ sep ++ after.
Proof.
  revert before. induction b as [| c b IH]; intros before; simpl.
  - destruct (startswith [] sep) eqn:Hs; [| done].
    apply startswith_prefix in Hs as [k Hk]. intros [= <- <-].
    symmetry in Hk. apply app_eq_nil in Hk as [-> ->]. done.
  - destruct (startswith (c :: b) sep) eqn:Hs.
    + apply startswith_prefix in Hs as [k Hk]. intros [= <- <-].
      rewrite Hk, drop_app_length. done.
    + destruct (split_once sep b) as [[x y] |]; [| done].
      intros [= <- <-]. simpl. f_equal. by apply IH.
Qed.

Lemma contains_split_once (sep b : bytes) :
  contains sep b = true ↔ is_Some (split_once sep b).
Proof.
  induction b as [| c b IH]; simpl.
  - rewrite orb_false_r. destruct (startswith [] sep).
    + split; [by eauto | done].
    + split; [done | by intros [? ?]].
  - destruct (startswith (c :: b) sep); simpl.
    + split; [by eauto | done].
    + rewrite IH. destruct (split_once sep b) as [[x y] |].
      * split; by eauto.
      * split; by intros [? ?].
Qed.

Lemma split_once_shorter (b before after : bytes) :
  split_once block_sep b = Some (before, after) →
  length after + 2 ≤ length b.
Proof.
  intros ->%split_once_Some. rewrite !length_app. simpl. lia.
Qed.

Lemma split_once_app (sep a c before after : bytes) :
  split_once sep a = Some (before, after) →
  split_once sep (a ++ c) = Some (before, after ++ c).
Proof.
  revert before. induction a as [| x a IH]; intros before; simpl.
  - destruct (startswith [] sep) eqn:Hs; [| done].
    intros [= <- <-].
    apply startswith_prefix in Hs as [k Hk].
    symmetry in Hk. apply app_eq_nil in Hk as [-> ->]. by destruct c.
  - destruct (startswith (x :: a) sep) eqn:Hs.
    + intros [= <- <-].
      pose proof (startswith_length _ _ Hs) as Hlen.
      change (x :: a ++ c) with ((x :: a) ++ c).
      rewrite (startswith_app _ _ _ Hs). f_equal. f_equal.
      by rewrite drop_app_le.
    + destruct (split_once sep a) as [[u v] |] eqn:Hsp; [| done].
      intros [= <- <-].
      assert (length sep ≤ length (x :: a)) as Hlen.
      { apply split_once_Some in Hsp as ->. simpl. rewrite !length_app. lia. }
      change (x :: a ++ c) with ((x :: a) ++ c).
      rewrite (startswith_app_long _ _ _ Hlen), Hs.
      by rewrite (IH _ eq_refl).
Qed.

Lemma contains_app (sep a c : bytes) :
  contains sep a = true → contains sep (a ++ c) = true.
Proof.
  rewrite !contains_split_once. intros [[x y] H].
  rewrite (split_once_app _ _ _ _ _ H). eauto.
Qed.

(** ** The event loop *)

Section EventStreamProofs.

Context {data : Type}.
Variable _parse_event_data : str → option data.
Variable decode : bytes → option str.
Variable str_strip : str → str.
Variable str_lower : str → str.
Variable str_of_data : data → str.
Variable str_of_bytes : bytes → str.

Abbreviation parse_block := (parse_block _parse_event_data decode str_strip).
Abbreviation handle_line := (handle_line _parse_event_data decode str_strip).
Abbreviation for_lines := (for_lines _parse_event_data decode str_strip).
Abbreviation scan := (scan _parse_event_data decode str_strip).
Abbreviation while_loop := (while_loop _parse_event_data decode str_strip).
Abbreviation feed := (feed _parse_event_data decode str_strip).
Abbreviation async_for := (async_for _parse_event_data decode str_strip).
Abbreviation parsed_from := (parsed_from _parse_event_data decode str_strip).
Abbreviation event_value := (event_value decode str_strip).
Abbreviation data_value_of := (data_value_of _parse_event_data decode str_strip).
Abbreviation verify := (verify str_lower str_of_data str_of_bytes).
Abbreviation answer_data := (answer_data str_lower str_of_data str_of_bytes).
Abbreviation run_single_user_task :=
  (run_single_user_task _parse_event_data decode str_strip
                        str_lower str_of_data str_of_bytes).

Implicit Types (e : @event_data data) (new evs : list (@event_data data)).

(** The accumulator only collects what [scan] reports. *)
Lemma while_loop_scan (fuel : nat) (buffer : bytes) evs :
  while_loop fuel buffer evs
  = '(r, new, _) ← scan fuel buffer; Some (r, evs ++ new).
Proof.
  revert buffer evs. induction fuel as [| fuel IH]; intros buffer evs; simpl.
  - by rewrite (right_id_L [] (++)).
  - destruct (contains block_sep buffer); simpl;
      [| by rewrite (right_id_L [] (++))].
    destruct (split_once block_sep buffer) as [[blk rest] |]; simpl; [| done].
    destruct (parse_block blk) as [e |]; simpl; [| done].
    destruct (nonempty e); [| by apply IH].
    destruct (is_Answer e); [done |].
    rewrite IH. destruct (scan fuel rest) as [[[r new] brk] |]; simpl; [| done].
    by rewrite <- (assoc_L (++)).
Qed.

(** Once the fuel covers the buffer, more fuel changes nothing. *)
Lemma scan_fuel (f1 f2 : nat) (buffer : bytes) :
  length buffer ≤ f1 → length buffer ≤ f2 → scan f1 buffer = scan f2 buffer.
Proof.
  revert f2 buffer. induction f1 as [| f1 IH]; intros f2 buffer H1 H2.
  - destruct buffer; simpl in *; [| lia]. by destruct f2.
  - destruct f2 as [| f2].
    { destruct buffer; simpl in *; [done | lia]. }
    simpl. destruct (contains block_sep buffer); [| done].
    destruct (split_once block_sep buffer) as [[blk rest] |] eqn:Hs; simpl;
      [| done].
    apply split_once_shorter in Hs.
    rewrite (IH f2 rest) by lia. done.
Qed.

Lemma parsed_from_prepend (p q : bytes) e :
  parsed_from q e → parsed_from (p ++ q) e.
Proof.
  intros (before & blk & after & -> & Hp).
  exists (p ++ before), blk, after. by rewrite <- (assoc_L (++)).
Qed.

Lemma parsed_from_append (p q : bytes) e :
  parsed_from p e → parsed_from (p ++ q) e.
Proof.
  intros (before & blk & after & -> & Hp).
  exists before, blk, (after ++ q). by rewrite <- !(assoc_L (++)).
Qed.

(** What [scan] reports: the events are non-empty dicts parsed from the
    bytes it consumed, the bytes it leaves are the rest of the buffer,
    and an ["Answer"] event can only come last, with the break flag. *)
Lemma scan_spec (fuel : nat) (buffer r : bytes) new (brk : bool) :
  scan fuel buffer = Some (r, new, brk) →
  ∃ consumed,
    buffer = consumed ++ r
    ∧ Forall (λ e, nonempty e = true) new
    ∧ Forall (parsed_from consumed) new
    ∧ answer_event new = (if brk then last new else None)
    ∧ ends_with_Answer new = brk.
Proof.
  revert buffer new. induction fuel as [| fuel IH]; intros buffer new; simpl.
  { intros [= <- <- <-]. by exists []. }
  destruct (contains block_sep buffer); [| intros [= <- <- <-]; by exists []].
  destruct (split_once block_sep buffer) as [[blk rest] |] eqn:Hs; simpl;
    [| done].
  apply split_once_Some in Hs as ->.
  destruct (parse_block blk) as [e |] eqn:Hp; simpl; [| done].
  assert (Hfrom : ∀ q, parsed_from ((blk ++ block_sep) ++ q) e).
  { intros q. exists [], blk, q. by rewrite <- (assoc_L (++)). }
  destruct (nonempty e) eqn:Hne.
  - destruct (is_Answer e) eqn:Ha.
    + intros [= <- <- <-]. exists (blk ++ block_sep).
      split; [by rewrite <- (assoc_L (++)) |].
      split; [by constructor |].
      split; [constructor; [| done] |].
      { rewrite <- (right_id_L [] (++) (blk ++ block_sep)). apply Hfrom. }
      split; [simpl; by rewrite Ha |].
      unfold ends_with_Answer. simpl. done.
    + destruct (scan fuel rest) as [[[r0 new0] brk0] |] eqn:Hsc; simpl;
        [| done].
      intros [= <- <- <-].
      destruct (IH _ _ Hsc) as (consumed & -> & Hn & Hf & Hans & Hend).
      exists ((blk ++ block_sep) ++ consumed).
      split; [by rewrite <- !(assoc_L (++)) |].
      split; [by constructor |].
      split.
      { constructor; [apply Hfrom |].
        eapply Forall_impl; [exact Hf |]. intros e'. apply parsed_from_prepend. }
      split.
      { simpl. rewrite Ha, Hans. destruct brk0; [| done].
        destruct new0; [| done]. simpl in *. unfold ends_with_Answer in Hend.
        done. }
      unfold ends_with_Answer in *. destruct new0 as [| e1 new1]; simpl in *.
      * by rewrite Ha.
      * done.
  - intros Hsc.
    destruct (IH _ _ Hsc) as (consumed & -> & Hn & Hf & Hans & Hend).
    exists ((blk ++ block_sep) ++ consumed).
    split; [by rewrite <- !(assoc_L (++)) |].
    split; [done |].
    split; [| done].
    eapply Forall_impl; [exact Hf |]. intros e'. apply parsed_from_prepend.
Qed.

(** Without a break the loop stops only when no blank line is left. *)
Lemma scan_drained (fuel : nat) (buffer r : bytes) new :
  length buffer ≤ fuel →
  scan fuel buffer = Some (r, new, false) →
  contains block_sep r = false.
Proof.
  revert buffer new. induction fuel as [| fuel IH]; intros buffer new Hlen; simpl.
  { destruct buffer; simpl in *; [| lia]. by intros [= <- <-]. }
  destruct (contains block_sep buffer) eqn:Hc; [| by intros [= <- <-]].
  destruct (split_once block_sep buffer) as [[blk rest] |] eqn:Hs; simpl;
    [| done].
  apply split_once_shorter in Hs.
  destruct (parse_block blk) as [e |]; simpl; [| done].
  destruct (nonempty e).
  - destruct (is_Answer e); [done |].
    destruct (scan fuel rest) as [[[r0 new0] brk0] |] eqn:Hsc; simpl; [| done].
    intros [= <- <- ->]. eapply IH; [| exact Hsc]. lia.
  - intros Hsc. eapply IH; [| exact Hsc]. lia.
Qed.

(** Bytes that arrive behind a buffer are reached only if the loop did
    not break. *)
Lemma scan_app (fuel fuel' : nat) (a c r : bytes) new (brk : bool) :
  length a ≤ fuel → length (a ++ c) ≤ fuel' →
  scan fuel a = Some (r, new, brk) →
  scan fuel' (a ++ c)
  = if brk then Some (r ++ c, new, true)
    else '(r', new', brk') ← scan (length (r ++ c)) (r ++ c);
         Some (r', new ++ new', brk').
Proof.
  assert (Hid : ∀ (x : option (bytes * list (@event_data data) * bool)),
            x = ('(r', new', brk') ← x; Some (r', [] ++ new', brk'))).
  { by intros [[[? ?] ?] |]. }
  revert fuel' a new. induction fuel as [| fuel IH]; intros fuel' a new Ha Hac.
  { destruct a; simpl in *; [| lia]. intros [= <- <- <-]. simpl.
    rewrite <- Hid. by apply scan_fuel. }
  simpl. destruct (contains block_sep a) eqn:Hc.
  2:{ intros [= <- <- <-]. rewrite <- Hid. by apply scan_fuel. }
  destruct (split_once block_sep a) as [[blk rest] |] eqn:Hs; simpl; [| done].
  pose proof (split_once_shorter _ _ _ Hs) as Hshort.
  destruct fuel' as [| fuel']; [rewrite length_app in Hac; lia |].
  simpl. rewrite (contains_app _ _ _ Hc), (split_once_app _ _ _ _ _ Hs). simpl.
  destruct (parse_block blk) as [e |]; simpl; [| done].
  assert (length (rest ++ c) ≤ fuel') as Hrc.
  { rewrite length_app in *. lia. }
  destruct (nonempty e).
  - destruct (is_Answer e); [by intros [= <- <- <-] |].
    destruct (scan fuel rest) as [[[r0 new0] brk0] |] eqn:Hsc; simpl; [| done].
    intros [= <- <- <-].
    rewrite (IH fuel' rest new0) by (done || lia).
    destruct brk0; [done |].
    by destruct (scan (length (r0 ++ c)) (r0 ++ c)) as [[[? ?] ?] |].
  - intros Hsc. apply IH; done || lia.
Qed.

Lemma feed_scan (buffer chunk : bytes) evs :
  feed (buffer, evs) chunk
  = '(r, new, _) ← scan (length (buffer ++ chunk)) (buffer ++ chunk);
    Some (r, evs ++ new).
Proof. unfold feed. simpl. apply while_loop_scan. Qed.

(** X6. One round of the chunk loop.  When [feed] returns, the bytes
    received so far are the bytes consumed followed by the buffer left;
    the events appended are non-empty dicts, each parsed from a block of
    the consumed bytes that a blank line ends; an ["Answer"] event can
    only be the last one appended; and unless the round ended on an
    ["Answer"] event, no blank line is left in the buffer. *)
Theorem feed_postcondition (buffer chunk r : bytes) evs evs' :
  feed (buffer, evs) chunk = Some (r, evs') →
  ∃ consumed new,
    buffer ++ chunk = consumed ++ r
    ∧ evs' = evs ++ new
    ∧ Forall (λ e, nonempty e = true) new
    ∧ Forall (parsed_from consumed) new
    ∧ answer_event new = (if ends_with_Answer new then last new else None)
    ∧ (ends_with_Answer new = true ∨ contains block_sep r = false).
Proof.
  rewrite feed_scan.
  destruct (scan _ _) as [[[r0 new] brk] |] eqn:Hsc; simpl; [| done].
  intros [= <- <-].
  destruct (scan_spec _ _ _ _ _ Hsc) as (consumed & Hb & Hn & Hf & Hans & Hend).
  exists consumed, new. rewrite Hend.
  repeat split; try done.
  destruct brk; [by left | right].
  by eapply scan_drained; [| exact Hsc].
Qed.

(** X7. Where a chunk boundary falls matters only after an ["Answer"]
    event.  If a round over [c1] ended without one, feeding [c2] next
    gives what feeding [c1 ++ c2] at once gives.  If it ended on an
    ["Answer"] event, then in [c1 ++ c2] the loop stops at the same
    place and leaves all of [c2] unparsed in the buffer. *)
Theorem feed_app (buffer c1 c2 r : bytes) evs new :
  feed (buffer, evs) c1 = Some (r, evs ++ new) →
  feed (buffer, evs) (c1 ++ c2)
  = if ends_with_Answer new then Some (r ++ c2, evs ++ new)
    else feed (r, evs ++ new) c2.
Proof.
  rewrite !feed_scan.
  destruct (scan _ (buffer ++ c1)) as [[[r0 new0] brk] |] eqn:Hsc; simpl;
    [| done].
  intros [= <- Hnew]. apply (inj (app evs)) in Hnew as <-.
  destruct (scan_spec _ _ _ _ _ Hsc) as (_ & _ & _ & _ & _ & ->).
  rewrite (assoc_L (++) buffer c1 c2).
  rewrite (scan_app _ _ _ c2 _ _ _ (Nat.le_refl _) (Nat.le_refl _) Hsc).
  destruct brk; [done |].
  destruct (scan _ (r0 ++ c2)) as [[[r1 new1] brk1] |]; simpl; [| done].
  by rewrite (assoc_L (++)).
Qed.

(** ** One event block *)

Lemma event_prefix_eq :
  event_prefix = ["e"; "v"; "e"; "n"; "t"; ":"; " "]%char.
Proof. reflexivity. Qed.

Lemma data_prefix_eq : data_prefix = ["d"; "a"; "t"; "a"; ":"; " "]%char.
Proof. reflexivity. Qed.

(** No line takes both branches, and a line that strips to nothing takes
    neither. *)
Lemma event_line_not_data_line (line : bytes) :
  event_line line = true → data_line line = false.
Proof.
  unfold event_line, data_line. rewrite event_prefix_eq, data_prefix_eq.
  destruct (strip line) as [| c b]; simpl; [done |].
  rewrite !andb_true_iff, bool_decide_eq_true. intros [<- _]. done.
Qed.

Lemma handle_line_cases e (line : bytes) :
  handle_line e line
  = if event_line line
    then s ← event_value line; Some (mk_event_data (Some s) (ev_data e))
    else if data_line line
         then Some (mk_event_data (ev_event e) (Some (data_value_of line)))
         else Some e.
Proof.
  unfold handle_line, event_line, data_line, event_value, data_value_of.
  case_bool_decide as Hnil.
  - rewrite Hnil. by rewrite event_prefix_eq, data_prefix_eq.
  - destruct (startswith (strip line) event_prefix); [| done].
    by destruct (decode _).
Qed.

Lemma for_lines_raises (lines : list bytes) e0 :
  for_lines lines e0 = None
  ↔ ∃ line, line ∈ lines ∧ event_line line = true ∧ event_value line = None.
Proof.
  revert e0. induction lines as [| line lines IH]; intros e0; simpl.
  - split; [done |]. intros (line & Hin & _). by apply elem_of_nil in Hin.
  - rewrite handle_line_cases.
    destruct (event_line line) eqn:Hev.
    + destruct (event_value line) as [s |] eqn:Hval; simpl.
      * rewrite IH. split.
        -- intros (l & Hin & H). exists l. split; [by right | done].
        -- intros (l & Hin & Hl & Hv). apply elem_of_cons in Hin as [-> | Hin].
           ++ congruence.
           ++ by exists l.
      * split; [| done]. intros _. exists line. split; [by left | done].
    + assert (∀ e1, for_lines lines e1 = None
                    ↔ ∃ l, l ∈ line :: lines ∧ event_line l = true
                           ∧ event_value l = None) as Hrest.
      { intros e1. rewrite IH. split.
        - intros (l & Hin & H). exists l. split; [by right | done].
        - intros (l & Hin & Hl & Hv). apply elem_of_cons in Hin as [-> | Hin].
          + congruence.
          + by exists l. }
      destruct (data_line line); simpl; apply Hrest.
Qed.

Lemma for_lines_fields (lines : list bytes) e0 e :
  for_lines lines e0 = Some e →
  ev_event e = match last (filter (λ l, event_line l = true) lines) with
               | Some l => event_value l
               | None => ev_event e0
               end
  ∧ ev_data e = match last (filter (λ l, data_line l = true) lines) with
                | Some l => Some (data_value_of l)
                | None => ev_data e0
                end.
Proof.
  revert e0. induction lines as [| line lines IH]; intros e0; simpl.
  { by intros [= <-]. }
  rewrite handle_line_cases.
  destruct (event_line line) eqn:Hev.
  - pose proof (event_line_not_data_line _ Hev) as Hdl.
    destruct (event_value line) as [s |] eqn:Hval; simpl; [| done].
    intros [He Hd]%IH. simpl in *.
    rewrite filter_cons_True by done. rewrite filter_cons_False by congruence.
    rewrite last_cons. rewrite He, Hd.
    by destruct (last (filter (λ l, event_line l = true) lines)).
  - rewrite (filter_cons_False _ line) by congruence.
    destruct (data_line line) eqn:Hdl; simpl.
    + intros [He Hd]%IH. simpl in *.
      rewrite filter_cons_True by done. rewrite last_cons.
      split; [done |]. rewrite Hd.
      by destruct (last (filter (λ l, data_line l = true) lines)).
    + intros [He Hd]%IH.
      rewrite filter_cons_False by congruence. done.
Qed.

(** X8. How parsing a block can fail.  [parse_block] raises exactly when
    some line of the block takes the [event:] branch and its value is
    not valid UTF-8.  A [data:] line never makes it raise: when decoding
    or [_parse_event_data] fails, the raw bytes are stored instead. *)
Theorem parse_block_raises_iff (event_block : bytes) :
  parse_block event_block = None
  ↔ ∃ line,
      line ∈ split_byte LF event_block
      ∧ event_line line = true
      ∧ decode (drop (length event_prefix) (strip line)) = None.
Proof.
  unfold parse_block. rewrite for_lines_raises.
  split; intros (line & Hin & Hev & Hval); exists line;
    (split; [done |]); (split; [done |]);
    unfold event_value in *; by destruct (decode _).
Qed.

(** X9. What a block yields.  The ["event"] key holds the value of the
    last [event:] line of the block and the ["data"] key the value of
    the last [data:] line: later lines overwrite earlier ones, data
    lines are not joined.  The dict is empty, and the block is skipped,
    exactly when no line of the block takes either branch. *)
Theorem parse_block_last_line_wins (event_block : bytes) e :
  parse_block event_block = Some e →
  ev_event e
  = last (filter (λ l, event_line l = true) (split_byte LF event_block))
    ≫= event_value
  ∧ ev_data e
    = data_value_of
      <$> last (filter (λ l, data_line l = true) (split_byte LF event_block))
  ∧ (nonempty e = false
     ↔ Forall (λ l, event_line l = false ∧ data_line l = false)
              (split_byte LF event_block)).
Proof.
  intros Hp. pose proof Hp as [He Hd]%for_lines_fields. simpl in *.
  assert (Hok : ∀ l, l ∈ split_byte LF event_block → event_line l = true →
                     is_Some (event_value l)).
  { intros l Hin Hev. destruct (event_value l) eqn:Hv; [by eauto |].
    assert (parse_block event_block = None) as Hn; [| congruence].
    apply for_lines_raises. by exists l. }
  set (lines := split_byte LF event_block) in *.
  split; [by destruct (last (filter _ lines)) |].
  split; [by destruct (last (filter _ lines)) |].
  unfold nonempty. rewrite orb_false_iff, !bool_decide_eq_false.
  rewrite He, Hd, Forall_forall. split.
  - intros [Hne Hnd] l Hin. split.
    + destruct (event_line l) eqn:Hev; [| done]. exfalso. apply Hne.
      destruct (last (filter (λ l, event_line l = true) lines)) as [l' |] eqn:Hl.
      * apply last_Some_elem_of, list_elem_of_filter in Hl as [Hev' Hin'].
        by apply Hok.
      * apply last_None in Hl.
        assert (l ∈ filter (λ l, event_line l = true) lines) as Hf
          by (by apply list_elem_of_filter).
        rewrite Hl in Hf. by apply elem_of_nil in Hf.
    + destruct (data_line l) eqn:Hdl; [| done]. exfalso. apply Hnd.
      destruct (last (filter (λ l, data_line l = true) lines)) as [l' |] eqn:Hl;
        [by eauto |].
      apply last_None in Hl.
      assert (l ∈ filter (λ l, data_line l = true) lines) as Hf
        by (by apply list_elem_of_filter).
      rewrite Hl in Hf. by apply elem_of_nil in Hf.
  - intros Hall. split.
    + destruct (last (filter (λ l, event_line l = true) lines)) as [l' |] eqn:Hl;
        [| by intros [? ?]].
      apply last_Some_elem_of, list_elem_of_filter in Hl as [Hev' Hin'].
      destruct (Hall _ Hin') as [? _]. congruence.
    + destruct (last (filter (λ l, data_line l = true) lines)) as [l' |] eqn:Hl;
        [| by intros [? ?]].
      apply last_Some_elem_of, list_elem_of_filter in Hl as [Hdl' Hin'].
      destruct (Hall _ Hin') as [_ ?]. congruence.
Qed.

(** ** Lines without a value *)

Lemma lstrip_spaces (ws x : bytes) :
  Forall (λ c, is_space c = true) ws → lstrip (ws ++ x) = lstrip x.
Proof. induction 1 as [| c ws Hc _ IH]; simpl; [done | by rewrite Hc]. Qed.

Lemma rstrip_spaces (x ws : bytes) :
  Forall (λ c, is_space c = true) ws → rstrip (x ++ ws) = rstrip x.
Proof.
  intros Hws. unfold rstrip. rewrite reverse_app.
  rewrite lstrip_spaces; [done |]. by apply Forall_reverse.
Qed.

Lemma strip_field_without_value (p ws1 ws2 : bytes) (c : ascii) (p' : bytes) :
  p = c :: p' → is_space c = false →
  Forall (λ c, is_space c = true) ws1 →
  Forall (λ c, is_space c = true) ws2 →
  strip (ws1 ++ p ++ ws2) = rstrip p.
Proof.
  intros -> Hc H1 H2. unfold strip. rewrite (lstrip_spaces _ _ H1).
  simpl. rewrite Hc.
  change (c :: p' ++ ws2) with ((c :: p') ++ ws2). by apply rstrip_spaces.
Qed.

(** X10. A field line without a value is dropped.  A line that holds
    [event:] or [data:] and, around it, only white space leaves the dict
    as it was: stripping the line takes away the blank that the prefix
    test asks for. *)
Theorem field_line_without_value_is_ignored e (ws1 ws2 : bytes) :
  Forall (λ c, is_space c = true) ws1 →
  Forall (λ c, is_space c = true) ws2 →
  handle_line e (ws1 ++ event_prefix ++ ws2) = Some e
  ∧ handle_line e (ws1 ++ data_prefix ++ ws2) = Some e.
Proof.
  intros H1 H2. rewrite !handle_line_cases. unfold event_line, data_line.
  rewrite (strip_field_without_value event_prefix ws1 ws2 _ _ event_prefix_eq)
    by done.
  rewrite (strip_field_without_value data_prefix ws1 ws2 _ _ data_prefix_eq)
    by done.
  done.
Qed.

(** ** The whole task *)

Lemma feed_consumes (buffer chunk r : bytes) evs evs' :
  feed (buffer, evs) chunk = Some (r, evs') →
  ∃ consumed new,
    buffer ++ chunk = consumed ++ r
    ∧ evs' = evs ++ new
    ∧ Forall (parsed_from consumed) new.
Proof.
  rewrite feed_scan.
  destruct (scan _ _) as [[[r0 new] brk] |] eqn:Hsc; simpl; [| done].
  intros [= <- <-].
  destruct (scan_spec _ _ _ _ _ Hsc) as (consumed & Hb & _ & Hf & _).
  by exists consumed, new.
Qed.

Lemma async_for_consumes (chunks : list bytes) (buffer r : bytes) evs evs' :
  async_for chunks (buffer, evs) = Some (r, evs') →
  ∃ consumed new,
    buffer ++ concat chunks = consumed ++ r
    ∧ evs' = evs ++ new
    ∧ Forall (parsed_from consumed) new.
Proof.
  revert buffer evs. induction chunks as [| c cs IH]; intros buffer evs; simpl.
  - intros [= <- <-]. exists [], []. by rewrite !(right_id_L [] (++)).
  - destruct (feed (buffer, evs) c) as [[r1 evs1] |] eqn:Hf; simpl; [| done].
    intros Hrest.
    destruct (feed_consumes _ _ _ _ _ Hf) as (cons1 & new1 & Hb1 & -> & Hp1).
    destruct (IH _ _ Hrest) as (cons2 & new2 & Hb2 & -> & Hp2).
    exists (cons1 ++ cons2), (new1 ++ new2).
    split; [by rewrite (assoc_L (++)), Hb1, <- !(assoc_L (++)), Hb2 |].
    split; [by rewrite (assoc_L (++)) |].
    apply Forall_app. split.
    + eapply Forall_impl; [exact Hp1 |]. intros e. apply parsed_from_append.
    + eapply Forall_impl; [exact Hp2 |]. intros e. apply parsed_from_prepend.
Qed.

Lemma answer_event_Some evs e :
  answer_event evs = Some e → e ∈ evs ∧ is_Answer e = true.
Proof.
  induction evs as [| e' evs IH]; simpl; [done |].
  destruct (is_Answer e') eqn:Ha.
  - intros [= <-]. split; [by left | done].
  - intros [Hin ?]%IH. split; [by right | done].
Qed.

(** X11. What a passing task has seen.  When [run_single_user_task]
    returns [True], the status code was 200 and the bytes of the reply
    hold a block, ended by a blank line, that parses to an ["Answer"]
    event whose lowered data text contains ["50"]. *)
Theorem passing_task_saw_an_answer (status_code : Z) (chunks : list bytes) :
  run_single_user_task status_code chunks = true →
  status_code = 200%Z
  ∧ ∃ e,
      parsed_from (concat chunks) e
      ∧ is_Answer e = true
      ∧ contains (str_lower [53; 48]%N) (answer_data e) = true.
Proof.
  unfold run_single_user_task. case_bool_decide as Hst; [done |].
  destruct (async_for chunks ([], [])) as [[r evs] |] eqn:Hrun; [| done].
  destruct (async_for_consumes _ _ _ _ _ Hrun) as (consumed & new & Hb & -> & Hp).
  simpl in Hb. unfold verify. simpl.
  destruct (answer_event new) as [e |] eqn:Ha; [| done].
  apply answer_event_Some in Ha as [Hin Hans].
  rewrite andb_true_r. intros Hkw. split; [done |]. exists e.
  split; [| done]. rewrite Hb. apply parsed_from_append.
  by eapply Forall_forall in Hp.
Qed.

(** ** Streams without a blank line, and bytes after the answer *)

Lemma scan_no_separator (fuel : nat) (buffer : bytes) :
  contains block_sep buffer = false →
  scan fuel buffer = Some (buffer, [], false).
Proof. intros Hc. destruct fuel; simpl; [done | by rewrite Hc]. Qed.

Lemma contains_app_false (sep a c : bytes) :
  contains sep (a ++ c) = false → contains sep a = false.
Proof.
  intros Hac. destruct (contains sep a) eqn:Ha; [| done].
  by rewrite (contains_app _ _ _ Ha) in Hac.
Qed.

Lemma async_for_no_separator (chunks : list bytes) (buffer : bytes) evs :
  contains block_sep (buffer ++ concat chunks) = false →
  async_for chunks (buffer, evs) = Some (buffer ++ concat chunks, evs).
Proof.
  revert buffer. induction chunks as [| c cs IH]; intros buffer Hc; simpl.
  - by rewrite (right_id_L [] (++)).
  - simpl in Hc. rewrite (assoc_L (++)) in Hc.
    rewrite feed_scan, (scan_no_separator _ _ (contains_app_false _ _ _ Hc)).
    simpl. rewrite (right_id_L [] (++)), (IH _ Hc).
    by rewrite (assoc_L (++)).
Qed.

(** X13. A reply without a blank line yields nothing.  If the bytes of
    the reply never hold two line feeds in a row (as when the server
    ends its lines with CR LF), the loop parses no event, the buffer
    simply collects the whole reply, and the task returns [False]
    whatever the status code. *)
Theorem reply_without_blank_line_fails (status_code : Z) (chunks : list bytes) :
  contains block_sep (concat chunks) = false →
  async_for chunks ([], []) = Some (concat chunks, [])
  ∧ run_single_user_task status_code chunks = false.
Proof.
  intros Hc.
  assert (async_for chunks ([], []) = Some (concat chunks, [])) as Hrun.
  { by rewrite async_for_no_separator. }
  split; [done |]. unfold run_single_user_task.
  case_bool_decide; [done |]. by rewrite Hrun.
Qed.

Lemma async_for_app (chunks1 chunks2 : list bytes) (st : bytes * list event_data) :
  async_for (chunks1 ++ chunks2) st
  = async_for chunks1 st ≫= async_for chunks2.
Proof.
  revert st. induction chunks1 as [| c cs IH]; intros st; simpl; [done |].
  destruct st as [buffer evs].
  destruct (feed (buffer, evs) c) as [st' |]; simpl; [apply IH | done].
Qed.

Lemma answer_event_app evs new :
  is_Some (answer_event evs) →
  answer_event (evs ++ new) = answer_event evs.
Proof.
  induction evs as [| e evs IH]; simpl; [by intros [? ?] |].
  destruct (is_Answer e); [done | apply IH].
Qed.

(** X14. Bytes after the answer cannot help.  The loop goes on reading
    after an ["Answer"] event, but the check looks at the first one
    only: once the events hold an ["Answer"] event, a task that passes
    on a longer reply passes on the reply read so far. *)
Theorem bytes_after_the_answer_cannot_help
    (status_code : Z) (chunks1 chunks2 : list bytes) (r : bytes) evs :
  async_for chunks1 ([], []) = Some (r, evs) →
  is_Some (answer_event evs) →
  run_single_user_task status_code (chunks1 ++ chunks2) = true →
  run_single_user_task status_code chunks1 = true.
Proof.
  intros Hrun Hans. unfold run_single_user_task.
  case_bool_decide; [done |].
  rewrite async_for_app, Hrun. simpl.
  destruct (async_for chunks2 (r, evs)) as [[r' evs'] |] eqn:Hrun2; [| done].
  destruct (async_for_consumes _ _ _ _ _ Hrun2) as (_ & new & _ & -> & _).
  unfold verify. by rewrite (answer_event_app _ _ Hans).
Qed.
End EventStreamProofs.

Lemma feed_postcondition_witness :
  feed text_payload ascii_decode id ([], []) answer_chunk
  = Some ([], [answer_50])
  ∧ ∃ consumed new,
      [] ++ answer_chunk = consumed ++ []
      ∧ [answer_50] = [] ++ new
      ∧ Forall (λ e, nonempty e = true) new
      ∧ Forall (parsed_from text_payload ascii_decode id consumed) new
      ∧ answer_event new = (if ends_with_Answer new then last new else None)
      ∧ (ends_with_Answer new = true ∨ contains block_sep [] = false).
Proof.
  assert (H : feed text_payload ascii_decode id ([], []) answer_chunk
              = Some ([], [answer_50])) by (vm_compute; reflexivity).
  split; [exact H |].
  exact (feed_postcondition text_payload ascii_decode id _ _ _ _ _ H).
Defined.

Lemma feed_app_witness :
  feed text_payload ascii_decode id ([], []) step_chunk
  = Some ([], [] ++ [step_event])
  ∧ feed text_payload ascii_decode id ([], []) (step_chunk ++ answer_chunk)
    = if ends_with_Answer [step_event]
      then Some ([] ++ answer_chunk, [] ++ [step_event])
      else feed text_payload ascii_decode id ([], [] ++ [step_event]) answer_chunk.
Proof.
  assert (H : feed text_payload ascii_decode id ([], []) step_chunk
              = Some ([], [] ++ [step_event])) by (vm_compute; reflexivity).
  split; [exact H |].
  exact (feed_app text_payload ascii_decode id _ _ answer_chunk _ _ _ H).
Defined.

Lemma parse_block_last_line_wins_witness :
  parse_block text_payload ascii_decode id answer_block = Some answer_50
  ∧ ev_event answer_50
    = last (filter (λ l, event_line l = true) (split_byte LF answer_block))
      ≫= event_value ascii_decode id
  ∧ ev_data answer_50
    = data_value_of text_payload ascii_decode id
      <$> last (filter (λ l, data_line l = true) (split_byte LF answer_block))
  ∧ (nonempty answer_50 = false
     ↔ Forall (λ l, event_line l = false ∧ data_line l = false)
              (split_byte LF answer_block)).
Proof.
  assert (H : parse_block text_payload ascii_decode id answer_block
              = Some answer_50) by (vm_compute; reflexivity).
  split; [exact H |].
  exact (parse_block_last_line_wins text_payload ascii_decode id _ _ H).
Defined.

Lemma field_line_without_value_is_ignored_witness :
  Forall (λ c, is_space c = true) [" "%char]
  ∧ Forall (λ c, is_space c = true) [" "%char; "013"%char]
  ∧ handle_line text_payload ascii_decode id answer_50
      ([" "%char] ++ event_prefix ++ [" "%char; "013"%char])
    = Some answer_50
  ∧ handle_line text_payload ascii_decode id answer_50
      ([" "%char] ++ data_prefix ++ [" "%char; "013"%char])
    = Some answer_50.
Proof.
  assert (H1 : Forall (λ c, is_space c = true) [" "%char])
    by (repeat constructor).
  assert (H2 : Forall (λ c, is_space c = true) [" "%char; "013"%char])
    by (repeat constructor).
  split; [exact H1 |]. split; [exact H2 |].
  exact (field_line_without_value_is_ignored
           text_payload ascii_decode id answer_50 _ _ H1 H2).
Defined.

Lemma passing_task_saw_an_answer_witness :
  run_single_user_task text_payload ascii_decode id id id (λ _, [])
                       200 [step_chunk; answer_chunk]
  = true
  ∧ 200%Z = 200%Z
  ∧ ∃ e,
      parsed_from text_payload ascii_decode id
                  (concat [step_chunk; answer_chunk]) e
      ∧ is_Answer e = true
      ∧ contains (id [53; 48]%N) (answer_data id id (λ _, []) e) = true.
Proof.
  assert (H : run_single_user_task text_payload ascii_decode id id id (λ _, [])
                                   200 [step_chunk; answer_chunk] = true)
    by (vm_compute; reflexivity).
  split; [exact H |].
  exact (passing_task_saw_an_answer
           text_payload ascii_decode id id id (λ _, []) _ _ H).
Defined.

Lemma reply_without_blank_line_fails_witness :
  contains block_sep (concat [answer_block; answer_block]) = false
  ∧ async_for text_payload ascii_decode id [answer_block; answer_block] ([], [])
    = Some (concat [answer_block; answer_block], [])
  ∧ run_single_user_task text_payload ascii_decode id id id (λ _, [])
                         200 [answer_block; answer_block]
    = false.
Proof.
  assert (H : contains block_sep (concat [answer_block; answer_block]) = false)
    by (vm_compute; reflexivity).
  split; [exact H |].
  exact (reply_without_blank_line_fails
           text_payload ascii_decode id id id (λ _, []) 200 _ H).
Defined.

Lemma bytes_after_the_answer_cannot_help_witness :
  async_for text_payload ascii_decode id [answer_chunk] ([], [])
  = Some ([], [answer_50])
  ∧ is_Some (answer_event [answer_50])
  ∧ run_single_user_task text_payload ascii_decode id id id (λ _, [])
                         200 ([answer_chunk] ++ [step_chunk])
    = true
  ∧ run_single_user_task text_payload ascii_decode id id id (λ _, [])
                         200 [answer_chunk]
    = true.
Proof.
  assert (H1 : async_for text_payload ascii_decode id [answer_chunk] ([], [])
               = Some ([], [answer_50])) by (vm_compute; reflexivity).
  assert (H2 : is_Some (answer_event [answer_50])) by (vm_compute; eauto).
  assert (H3 : run_single_user_task text_payload ascii_decode id id id (λ _, [])
                                    200 ([answer_chunk] ++ [step_chunk]) = true)
    by (vm_compute; reflexivity).
  split; [exact H1 |]. split; [exact H2 |]. split; [exact H3 |].
  exact (bytes_after_the_answer_cannot_help
           text_payload ascii_decode id id id (λ _, []) 200 _ _ _ _ H1 H2 H3).
Defined.

(** ** Counting the results *)

Lemma success_count_failures (results : list bool) :
  (success_count results
   + Z.of_nat (length (filter (λ r, r = false) results)))%Z
  = Z.of_nat (length results).
Proof.
  induction results as [| [|] rs IH]; [done | |].
  - rewrite filter_cons_False by done. simpl. lia.
  - rewrite filter_cons_True by done. simpl. lia.
Qed.

Lemma no_failures_all_true (results : list bool) :
  length (filter (λ r, r = false) results) = 0
  ↔ Forall (λ r, r = true) results.
Proof.
  induction results as [| [|] rs IH].
  - split; [by constructor | done].
  - rewrite filter_cons_False by done. rewrite IH. split.
    + by constructor.
    + by inversion 1.
  - rewrite filter_cons_True by done. simpl. split; [done |].
    by inversion 1.
Qed.

(** X12. The verdict of [test_concurrent_users].  With one result per
    user, [failure_count] is the number of tasks that returned [False],
    and the final assertion passes exactly when every task returned
    [True]. *)
Theorem all_users_must_succeed (results : list bool) :
  Z.of_nat (length results) = num_users →
  failure_count results = Z.of_nat (length (filter (λ r, r = false) results))
  ∧ (test_concurrent_users_passes results = true
     ↔ Forall (λ r, r = true) results).
Proof.
  intros Hlen. pose proof (success_count_failures results) as Hsum.
  assert (failure_count results
          = Z.of_nat (length (filter (λ r, r = false) results))) as Hf.
  { unfold failure_count. lia. }
  split; [done |].
  unfold test_concurrent_users_passes.
  rewrite bool_decide_eq_true, Hf, <- no_failures_all_true. lia.
Qed.

Lemma all_users_must_succeed_witness :
  Z.of_nat (length (replicate 20 true)) = num_users
  ∧ failure_count (replicate 20 true)
    = Z.of_nat (length (filter (λ r, r = false) (replicate 20 true)))
  ∧ (test_concurrent_users_passes (replicate 20 true) = true
     ↔ Forall (λ r, r = true) (replicate 20 true)).
Proof.
  assert (H : Z.of_nat (length (replicate 20 true)) = num_users)
    by reflexivity.
  split; [exact H |].
  exact (all_users_must_succeed (replicate 20 true) H).
Defined.
